(** * graph2nosql: the Firestore knowledge-graph store

    A shallow embedding of [databases/firestore_kg.py] (class [FirestoreKG]):
    node records carrying their own adjacency lists, a separate collection
    of edge records keyed by a derived identifier, and the operations that
    keep the two in step.  The document store is modelled as two finite
    maps keyed by strings; every operation is a state transformer that
    returns the store it leaves behind together with its outcome, so that
    writes made before an exception is raised stay visible, as they do in
    Firestore.  Community records live in a third collection, which only
    [flush_kg] shares with the other two.  Nearest-neighbour search is
    delegated to the store's vector index and is left out. *)

From stdpp Require Import base option list gmap strings.

Open Scope string_scope.

(** ** Data model *)

(** Modelled from the spec: [NodeData] is declared in
    [datamodel/data_model.py], which is not among the sources.  The spec
    gives a node an open-ended attribute bag and the two adjacency fields;
    the adjacency fields are Python lists of uids. *)
Record NodeData := mkNode {
  node_attrs : list (string * string);
  edges_to   : list string;
  edges_from : list string;
}.

(** Modelled from the spec: [EdgeData] is declared in
    [datamodel/data_model.py], which is not among the sources.  The stored
    document has the five keys written by [_update_egde_coll]; callers of
    [add_edge] need not supply [edge_uid], the code never reads it. *)
Record EdgeData := mkEdge {
  edge_uid    : option string;
  source_uid  : string;
  target_uid  : string;
  description : string;
  directed    : bool;
}.

Record Store := mkStore {
  nodes : gmap string NodeData;
  edges : gmap string EdgeData;
}.

Definition with_nodes (st : Store) (ns : gmap string NodeData) : Store :=
  mkStore ns (edges st).
Definition with_edges (st : Store) (es : gmap string EdgeData) : Store :=
  mkStore (nodes st) es.

Definition set_edges_to (n : NodeData) (l : list string) : NodeData :=
  mkNode (node_attrs n) l (edges_from n).
Definition set_edges_from (n : NodeData) (l : list string) : NodeData :=
  mkNode (node_attrs n) (edges_to n) l.

#[global] Instance NodeData_eq_dec : EqDecision NodeData.
Proof. solve_decision. Defined.
#[global] Instance EdgeData_eq_dec : EqDecision EdgeData.
Proof. solve_decision. Defined.

(** ** Exceptions and the store monad *)

Inductive Exc := KeyError | ValueError | TypeError | Exception.

Inductive result (A : Type) :=
  | Ok (a : A)
  | Raise (e : Exc).
Arguments Ok {A} a.
Arguments Raise {A} e.

Definition M (A : Type) : Type := Store → Store * result A.

#[global] Instance M_ret : MRet M := λ A a st, (st, Ok a).
#[global] Instance M_bind : MBind M := λ A B f m st,
  match m st with
  | (st', Ok a) => f a st'
  | (st', Raise e) => (st', Raise e)
  end.

Definition raise {A} (e : Exc) : M A := λ st, (st, Raise e).

(** [try: body except KeyError: continue] inside a [for] loop. *)
Definition except_KeyError_continue (body : M unit) : M unit := λ st,
  match body st with
  | (st', Raise KeyError) => (st', Ok tt)
  | r => r
  end.

(** [try: body except Exception as e: raise Exception(...)]: every
    exception class used here derives from [Exception]. *)
Definition except_Exception_raise {A} (body : M A) : M A := λ st,
  match body st with
  | (st', Raise _) => (st', Raise Exception)
  | r => r
  end.

(** [try: body except ValueError as e: raise ValueError(...)]: the
    exception is replaced by one of the same class, others pass. *)
Definition except_ValueError_raise {A} (body : M A) : M A := λ st,
  match body st with
  | (st', Raise ValueError) => (st', Raise ValueError)
  | r => r
  end.

Fixpoint for_each {A} (l : list A) (body : A → M unit) : M unit :=
  match l with
  | [] => mret tt
  | x :: l' => _ ← body x; for_each l' body
  end.

(** ** Python list primitives *)

(** [list(set(l) | {x})]: the elements of [l] and [x], each once.  The
    order in which a Python set is iterated is not specified, so the
    operation is an interface with the two facts the language guarantees. *)
Class PySet := {
  list_set_union : list string → string → list string;
  list_set_union_NoDup : ∀ l x, NoDup (list_set_union l x);
  list_set_union_elem : ∀ l x y, y ∈ list_set_union l x ↔ y ∈ l ∨ y = x;
}.

(** One iteration order: first occurrences in list order, the new element
    last. *)
#[global, refine] Instance first_seen_PySet : PySet :=
  {| list_set_union l x := remove_dups (l ++ [x]) |}.
Proof.
  - intros l x. apply NoDup_remove_dups.
  - intros l x y. rewrite elem_of_remove_dups, elem_of_app, list_elem_of_singleton.
    reflexivity.
Defined.

(** [l.remove(x)]: drops the first occurrence; [ValueError] when there is
    none. *)
Fixpoint list_remove (x : string) (l : list string) : option (list string) :=
  match l with
  | [] => None
  | y :: l' => if decide (y = x) then Some l'
               else cons y <$> list_remove x l'
  end.

(** ** Edge identifier *)

Definition _generate_edge_uid (source_uid target_uid : string) : string :=
  source_uid +:+ "_to_" +:+ target_uid.

(** ** Node repository *)

Definition node_exist (node_uid : string) : M bool := λ st,
  (st, Ok (bool_decide (is_Some (nodes st !! node_uid)))).

Definition get_node (node_uid : string) : M NodeData := λ st,
  match nodes st !! node_uid with
  | Some n => (st, Ok n)
  | None => (st, Raise KeyError)
  end.

(** [doc_ref.update(node_data.__dict__)] overwrites every field of the
    record, since [__dict__] holds them all. *)
Definition update_node (node_uid : string) (node_data : NodeData) : M unit := λ st,
  match nodes st !! node_uid with
  | None => (st, Raise KeyError)
  | Some _ => (with_nodes st (<[node_uid := node_data]> (nodes st)), Ok tt)
  end.

Definition doc_set_node (node_uid : string) (node_data : NodeData) : M unit := λ st,
  (with_nodes st (<[node_uid := node_data]> (nodes st)), Ok tt).

Definition doc_delete_node (node_uid : string) : M unit := λ st,
  (with_nodes st (delete node_uid (nodes st)), Ok tt).

(** ** The Firestore client *)

(** The client library is external.  Two of its answers decide how
    [add_node] ends: whether [collection.document(uid)] accepts the uid
    as a document id (it raises [ValueError] for one that does not make
    a document path, such as ["a/b"]), and whether [doc_ref.set] can
    encode the record (it raises [ValueError] for a value out of
    Firestore's range).  Both are taken as parameters. *)
Class Firestore := {
  document_id_ok : string → bool;
  node_encodable : NodeData → bool;
}.

Section Engine.
Context `{PySet} `{Firestore}.

Definition add_node (node_uid : string) (node_data : NodeData) : M unit :=
  if negb (document_id_ok node_uid) then raise ValueError else
  ex ← node_exist node_uid;
  if (ex : bool) then raise ValueError else
  if bool_decide (edges_to node_data ≠ [] ∨ edges_from node_data ≠ [])
  then raise ValueError else
  if negb (node_encodable node_data) then raise ValueError else
  _ ← doc_set_node node_uid node_data;
  _ ← for_each (edges_to node_data) (λ other_node_uid,
        except_KeyError_continue (
          other_node_data ← get_node other_node_uid;
          update_node other_node_uid
            (set_edges_from other_node_data
               (list_set_union (edges_from other_node_data) node_uid))));
  for_each (edges_from node_data) (λ other_node_uid,
        except_KeyError_continue (
          other_node_data ← get_node other_node_uid;
          update_node other_node_uid
            (set_edges_to other_node_data
               (list_set_union (edges_from other_node_data) node_uid)))).

Definition remove_node (node_uid : string) : M unit :=
  ex ← node_exist node_uid;
  if negb ex then raise KeyError else
  node_data ← get_node node_uid;
  _ ← for_each (edges_from node_data) (λ other_node_uid,
        except_KeyError_continue (
          other_node_data ← get_node other_node_uid;
          update_node other_node_uid
            (set_edges_to other_node_data
               (filter (λ edge, edge ≠ node_uid) (edges_to other_node_data)))));
  _ ← for_each (edges_to node_data) (λ other_node_uid,
        except_KeyError_continue (
          other_node_data ← get_node other_node_uid;
          update_node other_node_uid
            (set_edges_from other_node_data
               (filter (λ edge, edge ≠ node_uid) (edges_from other_node_data)))));
  doc_delete_node node_uid.

(** ** Edge collection *)

Definition _update_egde_coll (edge_uid source_uid target_uid description : string)
    (directed : bool) : M unit := λ st,
  (with_edges st
     (<[edge_uid := mkEdge (Some edge_uid) source_uid target_uid description directed]>
        (edges st)), Ok tt).

Definition _delete_from_edge_coll (edge_uid : string) : M unit := λ st,
  (with_edges st (delete edge_uid (edges st)), Ok tt).

Definition get_edge (source_uid target_uid : string) : M EdgeData := λ st,
  match edges st !! _generate_edge_uid source_uid target_uid with
  | Some e => (st, Ok e)
  | None => (st, Raise KeyError)
  end.

Definition edge_exist (source_uid target_uid : string) : M bool := λ st,
  (st, Ok (bool_decide (is_Some (edges st !! _generate_edge_uid source_uid target_uid)))).

(** ** Adjacency engine *)

(** The two leading [if not self.get_node(..)] tests never take their
    branch (a [NodeData] object is truthy); what they do is raise
    [KeyError] from [get_node] when an endpoint is missing.  The
    [isinstance] test holds by typing. *)
Definition add_edge (edge_data : EdgeData) : M unit :=
  let s := source_uid edge_data in
  let t := target_uid edge_data in
  _ ← get_node s;
  _ ← get_node t;
  let edge_uid := _generate_edge_uid s t in
  except_ValueError_raise (
    source_node_data ← get_node s;
    target_node_data ← get_node t;
    let source_node_data :=
      set_edges_to source_node_data (list_set_union (edges_to source_node_data) t) in
    _ ← update_node s source_node_data;
    let target_node_data :=
      set_edges_from target_node_data (list_set_union (edges_from target_node_data) s) in
    _ ← update_node t target_node_data;
    _ ← _update_egde_coll edge_uid s t (description edge_data) (directed edge_data);
    if negb (directed edge_data) then
      let target_node_data :=
        set_edges_to target_node_data (list_set_union (edges_to target_node_data) s) in
      _ ← update_node t target_node_data;
      let source_node_data :=
        set_edges_from source_node_data (list_set_union (edges_from source_node_data) t) in
      _ ← update_node s source_node_data;
      let reverse_edge_uid := _generate_edge_uid t s in
      _update_egde_coll reverse_edge_uid t s (description edge_data) (directed edge_data)
    else mret tt).

Definition update_edge (edge_data : EdgeData) : M unit :=
  let s := source_uid edge_data in
  let t := target_uid edge_data in
  let edge_uid := _generate_edge_uid s t in
  ex ← edge_exist s t;
  if negb ex then raise KeyError else
  _ ← except_Exception_raise
        (_update_egde_coll edge_uid s t (description edge_data) (directed edge_data));
  except_Exception_raise (
    source_node_data ← get_node s;
    _ ← (if decide (t ∈ edges_to source_node_data) then mret tt
         else update_node s
                (set_edges_to source_node_data
                   (list_set_union (edges_to source_node_data) t)));
    target_node_data ← get_node t;
    if decide (s ∈ edges_from target_node_data) then mret tt
    else update_node t
           (set_edges_from target_node_data
              (list_set_union (edges_from target_node_data) s))).

(** [lst.remove(x)] on a field of a local record, [ValueError] (re-raised
    as [ValueError]) when [x] is not there. *)
Definition remove_or_ValueError (x : string) (l : list string) : M (list string) :=
  match list_remove x l with
  | Some l' => mret l'
  | None => raise ValueError
  end.

Definition remove_edge (source_uid target_uid : string) : M unit :=
  edge_data ← except_Exception_raise (get_edge source_uid target_uid);
  source_node_data ← except_Exception_raise (get_node source_uid);
  target_node_data ← except_Exception_raise (get_node target_uid);
  l ← remove_or_ValueError target_uid (edges_to source_node_data);
  let source_node_data := set_edges_to source_node_data l in
  _ ← update_node source_uid source_node_data;
  l ← remove_or_ValueError source_uid (edges_from target_node_data);
  let target_node_data := set_edges_from target_node_data l in
  _ ← update_node target_uid target_node_data;
  _ ← _delete_from_edge_coll (_generate_edge_uid source_uid target_uid);
  if negb (directed edge_data) then
    l ← remove_or_ValueError target_uid (edges_from source_node_data);
    let source_node_data := set_edges_from source_node_data l in
    _ ← update_node source_uid source_node_data;
    l ← remove_or_ValueError source_uid (edges_to target_node_data);
    let target_node_data := set_edges_to target_node_data l in
    _ ← update_node target_uid target_node_data;
    _delete_from_edge_coll (_generate_edge_uid target_uid source_uid)
  else mret tt.

(** ** Pruning *)

(** The first loop streams the node collection and keeps the ids of the
    documents of degree 0; the second removes them one by one. *)
Definition zerodegree_uids (st : Store) : list string :=
  (filter (λ doc, length (edges_to doc.2) + length (edges_from doc.2) = 0)
          (map_to_list (nodes st))).*1.

Definition clean_zerodegree_nodes : M unit := λ st,
  let nodes_to_remove := zerodegree_uids st in
  for_each nodes_to_remove remove_node st.

(** ** Closed forms of the edge operations *)

(** The node collection [add_edge] leaves behind, in terms of the records
    [ns] and [nt] it read for the source and the target before writing. *)
Definition add_edge_nodes (e : EdgeData) (ns nt : NodeData)
    (m : gmap string NodeData) : gmap string NodeData :=
  let s := source_uid e in
  let t := target_uid e in
  let ns1 := set_edges_to ns (list_set_union (edges_to ns) t) in
  let nt1 := set_edges_from nt (list_set_union (edges_from nt) s) in
  let m1 := <[t := nt1]> (<[s := ns1]> m) in
  if directed e then m1
  else
    let nt2 := set_edges_to nt1 (list_set_union (edges_to nt1) s) in
    let ns2 := set_edges_from ns1 (list_set_union (edges_from ns1) t) in
    <[s := ns2]> (<[t := nt2]> m1).

Definition add_edge_edges (e : EdgeData)
    (m : gmap string EdgeData) : gmap string EdgeData :=
  let s := source_uid e in
  let t := target_uid e in
  let fwd := _generate_edge_uid s t in
  let m1 := <[fwd := mkEdge (Some fwd) s t (description e) (directed e)]> m in
  if directed e then m1
  else
    let rev := _generate_edge_uid t s in
    <[rev := mkEdge (Some rev) t s (description e) (directed e)]> m1.

End Engine.

(** ** Closed forms of edge and node removal *)

(** The node collection [remove_edge] leaves behind when none of its
    [remove] calls fails, in terms of the records it read up front and the
    lists the [remove] calls produced. *)
Definition remove_edge_nodes (s t : string) (is_directed : bool)
    (ns nt : NodeData) (l1 l2 l3 l4 : list string)
    (m : gmap string NodeData) : gmap string NodeData :=
  let ns1 := set_edges_to ns l1 in
  let nt1 := set_edges_from nt l2 in
  let m1 := <[t := nt1]> (<[s := ns1]> m) in
  if is_directed then m1
  else <[t := set_edges_to nt1 l4]> (<[s := set_edges_from ns1 l3]> m1).

Definition remove_edge_edges (s t : string) (is_directed : bool)
    (m : gmap string EdgeData) : gmap string EdgeData :=
  let m1 := delete (_generate_edge_uid s t) m in
  if is_directed then m1 else delete (_generate_edge_uid t s) m1.

(** One round of the first loop of [remove_node]: the neighbour [other],
    if it is in the store, loses [uid] from its [edges_to]. *)
Definition strip_to (uid : string) (m : gmap string NodeData)
    (other : string) : gmap string NodeData :=
  match m !! other with
  | Some o =>
      <[other := set_edges_to o (filter (λ edge, edge ≠ uid) (edges_to o))]> m
  | None => m
  end.

(** One round of the second loop, on [edges_from]. *)
Definition strip_from (uid : string) (m : gmap string NodeData)
    (other : string) : gmap string NodeData :=
  match m !! other with
  | Some o =>
      <[other := set_edges_from o (filter (λ edge, edge ≠ uid) (edges_from o))]> m
  | None => m
  end.

(** The node collection after [remove_node uid], [n] being the record of
    [uid]: first pass over [edges_from n], second pass over [edges_to n],
    then the record itself goes. *)
Definition remove_node_nodes (uid : string) (n : NodeData)
    (m : gmap string NodeData) : gmap string NodeData :=
  delete uid
    (foldl (strip_from uid) (foldl (strip_to uid) m (edges_from n)) (edges_to n)).

(** ** Closed form of [update_edge] *)

(** What step 3 of [update_edge] does to one endpoint record: the entry
    is added when it is not there, otherwise the record is not written. *)
Definition ensure_edges_to `{PySet} (t : string) (n : NodeData) : NodeData :=
  if decide (t ∈ edges_to n) then n
  else set_edges_to n (list_set_union (edges_to n) t).

Definition ensure_edges_from `{PySet} (s : string) (n : NodeData) : NodeData :=
  if decide (s ∈ edges_from n) then n
  else set_edges_from n (list_set_union (edges_from n) s).

(** The node collection after the source step of [update_edge]. *)
Definition update_edge_source `{PySet} (s t : string) (ns : NodeData)
    (m : gmap string NodeData) : gmap string NodeData :=
  if decide (t ∈ edges_to ns) then m else <[s := ensure_edges_to t ns]> m.

(** The node collection after the target step, [nt] being the target
    record read after the source step. *)
Definition update_edge_target `{PySet} (s t : string) (nt : NodeData)
    (m : gmap string NodeData) : gmap string NodeData :=
  if decide (s ∈ edges_from nt) then m else <[t := ensure_edges_from s nt]> m.

(** ** Growth of adjacency *)

(** [n'] has the attributes of [n] and at least its adjacency entries. *)
Definition adjacency_grows (n n' : NodeData) : Prop :=
  node_attrs n' = node_attrs n ∧
  (∀ x, x ∈ edges_to n → x ∈ edges_to n') ∧
  (∀ x, x ∈ edges_from n → x ∈ edges_from n').

(** Every node of [m] is in [m'], grown. *)
Definition nodes_grow (m m' : gmap string NodeData) : Prop :=
  ∀ u n, m !! u = Some n → ∃ n', m' !! u = Some n' ∧ adjacency_grows n n'.

(** ** Comparing node records *)

(** Same attributes and the same adjacency sets: list order and repeated
    entries are not compared. *)
Definition same_adjacency_sets (n1 n2 : NodeData) : Prop :=
  node_attrs n1 = node_attrs n2 ∧
  (∀ x, x ∈ edges_to n1 ↔ x ∈ edges_to n2) ∧
  (∀ x, x ∈ edges_from n1 ↔ x ∈ edges_from n2).

(** Two node records agree when they carry the same attributes and their
    adjacency lists hold the same uids the same number of times. *)
Definition same_adjacency (n1 n2 : NodeData) : Prop :=
  node_attrs n1 = node_attrs n2 ∧
  edges_to n1 ≡ₚ edges_to n2 ∧
  edges_from n1 ≡ₚ edges_from n2.

Definition same_nodes (m1 m2 : gmap string NodeData) : Prop :=
  ∀ uid, option_Forall2 same_adjacency (m1 !! uid) (m2 !! uid).

Definition zero_degree (n : NodeData) : Prop :=
  length (edges_to n) + length (edges_from n) = 0.

#[global] Instance zero_degree_dec n : Decision (zero_degree n).
Proof. unfold zero_degree. apply _. Defined.

(** ** Graph materializer *)

(** [nx.Graph] is NetworkX's simple undirected graph, an external class:
    it keeps a node table and, per node, a dictionary of neighbours, so a
    pair of nodes is either adjacent or not.  [add_node] creates the node
    or updates its attributes; [add_edge(u, v)] creates missing endpoints
    with empty attributes and enters [v] among the neighbours of [u] and
    [u] among those of [v]; [number_of_edges(u, v)] is 1 when [v] is a
    neighbour of [u] and 0 otherwise. *)
Module nx.

Record Graph := mkGraph {
  _node : gmap string (option NodeData);
  _adj  : gmap string (gset string);
}.

Definition empty : Graph := mkGraph ∅ ∅.

Definition add_node (n : string) (attr : NodeData) (g : Graph) : Graph :=
  match _node g !! n with
  | None => mkGraph (<[n := Some attr]> (_node g)) (<[n := ∅]> (_adj g))
  | Some _ => mkGraph (<[n := Some attr]> (_node g)) (_adj g)
  end.

Definition touch (n : string) (g : Graph) : Graph :=
  match _node g !! n with
  | None => mkGraph (<[n := None]> (_node g)) (<[n := ∅]> (_adj g))
  | Some _ => g
  end.

Definition neighbors (n : string) (g : Graph) : gset string :=
  default ∅ (_adj g !! n).

Definition add_edge (u v : string) (g : Graph) : Graph :=
  let g := touch u g in
  let g := touch v g in
  let g := mkGraph (_node g) (<[u := {[v]} ∪ neighbors u g]> (_adj g)) in
  mkGraph (_node g) (<[v := {[u]} ∪ neighbors v g]> (_adj g)).

Definition number_of_edges (u v : string) (g : Graph) : nat :=
  if decide (v ∈ neighbors u g) then 1 else 0.

(** The node table and the adjacency table of a graph have the same keys. *)
Definition wf (g : Graph) : Prop :=
  ∀ n, _node g !! n = None → _adj g !! n = None.

End nx.

Definition build_networkx (st : Store) : nx.Graph :=
  let graph := nx.empty in
  let graph :=
    foldl (λ g doc, nx.add_node doc.1 doc.2 g) graph (map_to_list (nodes st)) in
  foldl (λ g doc, nx.add_edge (source_uid doc.2) (target_uid doc.2) g)
        graph (map_to_list (edges st)).

(** ** Substring tests on uids *)

(** [d in u] on Python strings. *)
Fixpoint contains (d u : string) : bool :=
  String.prefix d u ||
  match u with
  | EmptyString => false
  | String _ u' => contains d u'
  end.

(** [u.endswith(d)]. *)
Fixpoint ends_with (d u : string) : bool :=
  String.eqb d u ||
  match u with
  | EmptyString => false
  | String _ u' => ends_with d u'
  end.

(** ** Communities and the full reset *)

(** Modelled from the spec: [CommunityData] is declared in
    [datamodel/data_model.py], which is not among the sources.  The spec
    gives a community a title, used as its key, a sequence of member uids
    and a free-text summary. *)
Record CommunityData := mkCommunity {
  title   : string;
  members : list string;
  summary : string;
}.

(** The three collections a [FirestoreKG] object works on. *)
Record KG := mkKG {
  kg_store : Store;
  communities : gmap string CommunityData;
}.




(** One round of the outer loop of [flush_kg]: stream the documents of a
    collection and delete each through its reference. *)
Definition flush_collection {V} (m : gmap string V) : gmap string V :=
  foldl (λ m doc, delete doc.1 m) m (map_to_list m).

Definition flush_kg (kg : KG) : KG * result unit :=
  let ns := flush_collection (nodes (kg_store kg)) in
  let es := flush_collection (edges (kg_store kg)) in
  let cs := flush_collection (communities kg) in
  (mkKG (mkStore ns es) cs, Ok tt).

(** ** Sample stores *)

(** A client that refuses the uids holding a ["/"] and encodes every
    record; the sample records hold strings only. *)
#[global] Instance slash_free_Firestore : Firestore :=
  {| document_id_ok uid := negb (contains "/" uid);
     node_encodable _ := true |}.

Definition node0 : NodeData := mkNode [] [] [].

(** Two unconnected nodes. *)
Definition st_AB : Store :=
  mkStore (<["A" := node0]> (<["B" := node0]> ∅)) ∅.

Definition e_AB (is_directed : bool) : EdgeData :=
  mkEdge None "A" "B" "knows" is_directed.

Definition e_AA (is_directed : bool) : EdgeData :=
  mkEdge None "A" "A" "loop" is_directed.

(** A store in which [A -> B] is already recorded. *)
Definition st_A_to_B : Store :=
  mkStore
    (<["A" := mkNode [] ["B"] []]> (<["B" := mkNode [] [] ["A"]]> ∅))
    (<["A_to_B" := mkEdge (Some "A_to_B") "A" "B" "knows" true]> ∅).

(** [B] lists [A] in its [edges_to]; [A] does not list [B]. *)
Definition st_one_sided : Store :=
  mkStore (<["A" := mkNode [] [] []]> (<["B" := mkNode [] ["A"] []]> ∅)) ∅.

(** [A -> B] next to an unconnected node [C]. *)
Definition st_with_isolated : Store :=
  mkStore
    (<["A" := mkNode [] ["B"] []]>
       (<["B" := mkNode [] [] ["A"]]> (<["C" := node0]> ∅)))
    (<["A_to_B" := mkEdge (Some "A_to_B") "A" "B" "knows" true]> ∅).

(** Two different uids, neither of which contains the delimiter, whose
    forward and reverse identifiers are the same string. *)
Definition st_to : Store :=
  mkStore (<["to" := node0]> (<["to_to" := node0]> ∅)) ∅.

(** A node whose uid contains the delimiter, and a plain one. *)
Definition st_delimiter : Store :=
  mkStore (<["x_to_y" := node0]> (<["z" := node0]> ∅)) ∅.

(** [A -> B] is recorded in the edge collection and in [A], but [B] has
    lost its entry for [A]. *)
Definition st_half_removed : Store :=
  mkStore
    (<["A" := mkNode [] ["B"] []]> (<["B" := node0]> ∅))
    (<["A_to_B" := mkEdge (Some "A_to_B") "A" "B" "knows" true]> ∅).

(** The record [A_to_B] is left over after node [B] was removed. *)
Definition st_orphan : Store :=
  mkStore
    (<["A" := node0]> ∅)
    (<["A_to_B" := mkEdge (Some "A_to_B") "A" "B" "knows" true]> ∅).

(** The record [A_to_B] is there, the adjacency entries are not: what
    removing and re-creating node [B] leaves. *)
Definition st_stale_record : Store :=
  mkStore
    (<["A" := node0]> (<["B" := node0]> ∅))
    (<["A_to_B" := mkEdge (Some "A_to_B") "A" "B" "knows" true]> ∅).

Definition kg_sample : KG :=
  mkKG st_with_isolated
       (<["physics" := mkCommunity "physics" ["A"; "B"] "about physics"]> ∅).

(** * Properties *)

(** ** Running the store monad *)

Lemma bind_ok {A B} (m : M A) (f : A → M B) st st' a :
  m st = (st', Ok a) → (m ≫= f) st = f a st'.
Proof. intros E. unfold mbind, M_bind. by rewrite E. Qed.

Lemma bind_raise {A B} (m : M A) (f : A → M B) st st' e :
  m st = (st', Raise e) → (m ≫= f) st = (st', Raise e).
Proof. intros E. unfold mbind, M_bind. by rewrite E. Qed.

Lemma get_node_ok u n st : nodes st !! u = Some n → get_node u st = (st, Ok n).
Proof. intros E. unfold get_node. by rewrite E. Qed.

Lemma get_node_missing u st :
  nodes st !! u = None → get_node u st = (st, Raise KeyError).
Proof. intros E. unfold get_node. by rewrite E. Qed.

Lemma update_node_ok u x st :
  is_Some (nodes st !! u) →
  update_node u x st = (with_nodes st (<[u:=x]> (nodes st)), Ok tt).
Proof. intros [n E]. unfold update_node. by rewrite E. Qed.

Lemma node_exist_run u st :
  node_exist u st = (st, Ok (bool_decide (is_Some (nodes st !! u)))).
Proof. reflexivity. Qed.

Lemma remove_or_ValueError_ok x l l' st :
  list_remove x l = Some l' → remove_or_ValueError x l st = (st, Ok l').
Proof. intros E. unfold remove_or_ValueError. by rewrite E. Qed.

Ltac solve_lookup :=
  simpl; rewrite ?lookup_insert; repeat case_decide;
  first [reflexivity | eassumption | congruence].

Ltac prim :=
  first
    [ apply get_node_ok; solve_lookup
    | apply update_node_ok; simpl; rewrite ?lookup_insert; repeat case_decide;
      eexists; first [reflexivity | eassumption]
    | apply remove_or_ValueError_ok; eassumption
    | reflexivity ].

Ltac mstep :=
  lazymatch goal with
  | |- context [mbind ?f ?m ?st] => erewrite (bind_ok m f st) by prim
  end; simpl.

(** ** Adding an edge *)

Section AddEdge.
Context `{PySet}.

Lemma add_edge_eval st e ns nt :
  nodes st !! source_uid e = Some ns →
  nodes st !! target_uid e = Some nt →
  add_edge e st =
    (mkStore (add_edge_nodes e ns nt (nodes st)) (add_edge_edges e (edges st)),
     Ok tt).
Proof.
  intros Hs Ht. unfold add_edge, add_edge_nodes, add_edge_edges.
  mstep. mstep. unfold except_ValueError_raise.
  mstep. mstep. mstep. mstep. mstep.
  destruct (directed e); simpl; [done|].
  mstep. mstep. done.
Qed.

Lemma add_edge_missing_source st e :
  nodes st !! source_uid e = None → add_edge e st = (st, Raise KeyError).
Proof.
  intros Hs. unfold add_edge.
  by erewrite bind_raise by (by apply get_node_missing).
Qed.

Lemma add_edge_missing_target st e :
  nodes st !! target_uid e = None → add_edge e st = (st, Raise KeyError).
Proof.
  intros Ht. unfold add_edge.
  destruct (nodes st !! source_uid e) as [ns|] eqn:Hs.
  - mstep. by erewrite bind_raise by (by apply get_node_missing).
  - by erewrite bind_raise by (by apply get_node_missing).
Qed.

(** A successful [add_edge] found both endpoints. *)
Lemma add_edge_ok_inv st e st' :
  add_edge e st = (st', Ok tt) →
  ∃ ns nt, nodes st !! source_uid e = Some ns ∧
           nodes st !! target_uid e = Some nt.
Proof.
  intros Hrun.
  destruct (nodes st !! source_uid e) as [ns|] eqn:Hs;
    [|by rewrite add_edge_missing_source in Hrun].
  destruct (nodes st !! target_uid e) as [nt|] eqn:Ht;
    [|by rewrite add_edge_missing_target in Hrun].
  eauto.
Qed.

(** Between two different nodes a directed [add_edge] enters the target
    in the source's [edges_to], the source in the target's [edges_from],
    and stores a directed record. *)
Lemma add_edge_directed_distinct st e ns nt :
  nodes st !! source_uid e = Some ns →
  nodes st !! target_uid e = Some nt →
  source_uid e ≠ target_uid e →
  directed e = true →
  ∃ st' ns' nt' ed,
    add_edge e st = (st', Ok tt) ∧
    get_node (source_uid e) st' = (st', Ok ns') ∧
    get_node (target_uid e) st' = (st', Ok nt') ∧
    get_edge (source_uid e) (target_uid e) st' = (st', Ok ed) ∧
    target_uid e ∈ edges_to ns' ∧
    source_uid e ∈ edges_from nt' ∧
    directed ed = true.
Proof.
  intros Hs Ht Hne Hd. eexists _, _, _, _.
  split; [by apply add_edge_eval|].
  unfold get_edge, add_edge_nodes, add_edge_edges. rewrite Hd. simpl.
  rewrite lookup_insert_eq.
  split; [apply get_node_ok; simpl; by rewrite lookup_insert_ne, lookup_insert_eq|].
  split; [apply get_node_ok; simpl; by rewrite lookup_insert_eq|].
  split; [done|]. simpl.
  rewrite !list_set_union_elem. auto.
Qed.

(** C1 (defect): when source and target are the same node, the directed
    [add_edge] reads that node twice, writes the copy holding the new
    [edges_to] first and then overwrites it with the second copy, whose
    [edges_to] is still the old one.  The call succeeds and the edge record
    says [directed = true], yet the node is absent from its own
    [edges_to] unless it was there before. *)
Theorem add_edge_directed_self_loop_drops_edges_to st e n :
  nodes st !! source_uid e = Some n →
  target_uid e = source_uid e →
  directed e = true →
  ∃ st' n' ed,
    add_edge e st = (st', Ok tt) ∧
    get_node (source_uid e) st' = (st', Ok n') ∧
    get_edge (source_uid e) (target_uid e) st' = (st', Ok ed) ∧
    directed ed = true ∧
    edges_to n' = edges_to n ∧
    (target_uid e ∉ edges_to n → target_uid e ∉ edges_to n').
Proof.
  intros Hs Est Hd. eexists _, _, _.
  split; [apply add_edge_eval; [done | by rewrite Est]|].
  unfold get_edge, add_edge_nodes, add_edge_edges. rewrite Hd, Est. simpl.
  rewrite lookup_insert_eq.
  split; [apply get_node_ok; simpl; by rewrite lookup_insert_eq|].
  done.
Qed.

(** C2 (as amended): after an undirected [add_edge] between existing
    nodes, each node lists the other in both [edges_to] and [edges_from]
    and [get_edge] succeeds in both orientations; the reverse record is
    under the reverse identifier, and the forward record under the forward
    identifier whenever the two identifiers differ. *)
Theorem add_edge_undirected st e ns nt :
  nodes st !! source_uid e = Some ns →
  nodes st !! target_uid e = Some nt →
  directed e = false →
  ∃ st' ns' nt' ef er,
    add_edge e st = (st', Ok tt) ∧
    get_node (source_uid e) st' = (st', Ok ns') ∧
    get_node (target_uid e) st' = (st', Ok nt') ∧
    target_uid e ∈ edges_to ns' ∧ target_uid e ∈ edges_from ns' ∧
    source_uid e ∈ edges_to nt' ∧ source_uid e ∈ edges_from nt' ∧
    get_edge (source_uid e) (target_uid e) st' = (st', Ok ef) ∧
    get_edge (target_uid e) (source_uid e) st' = (st', Ok er) ∧
    directed ef = false ∧ directed er = false ∧
    edges st' !! _generate_edge_uid (target_uid e) (source_uid e) =
      Some (mkEdge (Some (_generate_edge_uid (target_uid e) (source_uid e)))
              (target_uid e) (source_uid e) (description e) false) ∧
    (_generate_edge_uid (source_uid e) (target_uid e) ≠
       _generate_edge_uid (target_uid e) (source_uid e) →
     edges st' !! _generate_edge_uid (source_uid e) (target_uid e) =
       Some (mkEdge (Some (_generate_edge_uid (source_uid e) (target_uid e)))
               (source_uid e) (target_uid e) (description e) false)).
Proof.
  intros Hs Ht Hd.
  pose proof (add_edge_eval st e ns nt Hs Ht) as Hrun.
  unfold add_edge_nodes, add_edge_edges in Hrun. rewrite Hd in Hrun.
  simpl in Hrun.
  destruct (decide (source_uid e = target_uid e)) as [E|NE].
  - eexists _, _, _, _, _. split; [exact Hrun|].
    unfold get_edge. simpl. rewrite E, !lookup_insert_eq.
    do 2 (split; [apply get_node_ok; simpl; by rewrite lookup_insert_eq|]).
    simpl. rewrite !list_set_union_elem. repeat split; auto.
  - destruct (decide (_generate_edge_uid (source_uid e) (target_uid e) =
                      _generate_edge_uid (target_uid e) (source_uid e)))
      as [K|K].
    + eexists _, _, _, _, _. split; [exact Hrun|].
      unfold get_edge. simpl. rewrite K, !lookup_insert_eq.
      split; [apply get_node_ok; simpl; by rewrite lookup_insert_eq|].
      split; [apply get_node_ok; simpl;
              by rewrite lookup_insert_ne, lookup_insert_eq|].
      simpl. rewrite !list_set_union_elem. repeat split; auto. done.
    + eexists _, _, _, _, _. split; [exact Hrun|].
      unfold get_edge. simpl.
      rewrite lookup_insert_eq, lookup_insert_ne, lookup_insert_eq by done.
      split; [apply get_node_ok; simpl; by rewrite lookup_insert_eq|].
      split; [apply get_node_ok; simpl;
              by rewrite lookup_insert_ne, lookup_insert_eq|].
      simpl. rewrite !list_set_union_elem. repeat split; auto.
Qed.

End AddEdge.

(** ** Idempotence of [add_edge] *)

Lemma same_adjacency_refl n : same_adjacency n n.
Proof. by repeat split. Qed.

Lemma same_nodes_refl m : same_nodes m m.
Proof.
  intros uid. destruct (m !! uid); constructor. apply same_adjacency_refl.
Qed.

Section Idempotence.
Context `{PySet}.

Lemma list_set_union_twice l x :
  list_set_union (list_set_union l x) x ≡ₚ list_set_union l x.
Proof.
  apply NoDup_Permutation; try apply list_set_union_NoDup.
  intros y. rewrite !list_set_union_elem. tauto.
Qed.

Lemma add_edge_edges_twice e m :
  add_edge_edges e (add_edge_edges e m) = add_edge_edges e m.
Proof.
  unfold add_edge_edges. destruct (directed e); simpl.
  - by rewrite insert_insert_eq.
  - apply map_eq. intros k. rewrite !lookup_insert.
    repeat case_decide; congruence.
Qed.

Local Ltac same_adj :=
  repeat split; simpl;
  first [reflexivity | apply list_set_union_twice].

(** After a successful [add_edge], the same call succeeds again and
    rewrites what is there. *)
Lemma add_edge_twice_ok st e st1 :
  add_edge e st = (st1, Ok tt) →
  ∃ st2, add_edge e st1 = (st2, Ok tt) ∧
         edges st2 = edges st1 ∧
         same_nodes (nodes st2) (nodes st1).
Proof.
  intros Hrun.
  destruct (add_edge_ok_inv _ _ _ Hrun) as (ns & nt & Hs & Ht).
  rewrite (add_edge_eval _ _ _ _ Hs Ht) in Hrun.
  injection Hrun as <-.
  destruct (decide (source_uid e = target_uid e)) as [E|NE];
    destruct (directed e) eqn:Hd.
  - (* directed self loop *)
    assert (nt = ns) as -> by (rewrite E in Hs; congruence).
    eexists. split.
    { apply add_edge_eval; simpl; unfold add_edge_nodes; rewrite Hd; simpl;
        rewrite ?E; apply lookup_insert_eq. }
    simpl. split; [apply add_edge_edges_twice|].
    intros uid. unfold add_edge_nodes. rewrite Hd. simpl. rewrite E.
    rewrite !lookup_insert. repeat case_decide; try congruence.
    + constructor. same_adj.
    + destruct (nodes st !! uid); constructor. apply same_adjacency_refl.
  - (* undirected self loop *)
    assert (nt = ns) as -> by (rewrite E in Hs; congruence).
    eexists. split.
    { apply add_edge_eval; simpl; unfold add_edge_nodes; rewrite Hd; simpl;
        rewrite ?E; apply lookup_insert_eq. }
    simpl. split; [apply add_edge_edges_twice|].
    intros uid. unfold add_edge_nodes. rewrite Hd. simpl. rewrite E.
    rewrite !lookup_insert. repeat case_decide; try congruence.
    + constructor. same_adj.
    + destruct (nodes st !! uid); constructor. apply same_adjacency_refl.
  - (* directed, two nodes *)
    eexists. split.
    { apply add_edge_eval; simpl; unfold add_edge_nodes; rewrite Hd; simpl.
      - by rewrite lookup_insert_ne, lookup_insert_eq.
      - by rewrite lookup_insert_eq. }
    simpl. split; [apply add_edge_edges_twice|].
    intros uid. unfold add_edge_nodes. rewrite Hd. simpl.
    rewrite !lookup_insert. repeat case_decide; try congruence.
    + constructor. same_adj.
    + constructor. same_adj.
    + destruct (nodes st !! uid); constructor. apply same_adjacency_refl.
  - (* undirected, two nodes *)
    eexists. split.
    { apply add_edge_eval; simpl; unfold add_edge_nodes; rewrite Hd; simpl.
      - by rewrite lookup_insert_eq.
      - by rewrite lookup_insert_ne, lookup_insert_eq. }
    simpl. split; [apply add_edge_edges_twice|].
    intros uid. unfold add_edge_nodes. rewrite Hd. simpl.
    rewrite !lookup_insert. repeat case_decide; try congruence.
    + constructor. same_adj.
    + constructor. same_adj.
    + destruct (nodes st !! uid); constructor. apply same_adjacency_refl.
Qed.

(** C6: calling [add_edge] a second time with the same edge data ends
    the way the first call did and leaves the edge collection exactly as
    the first call left it and every node with the same attributes and
    the same adjacency sets. *)
Theorem add_edge_idempotent st e :
  (add_edge e (add_edge e st).1).2 = (add_edge e st).2 ∧
  edges (add_edge e (add_edge e st).1).1 = edges (add_edge e st).1 ∧
  same_nodes (nodes (add_edge e (add_edge e st).1).1) (nodes (add_edge e st).1).
Proof.
  destruct (nodes st !! source_uid e) as [ns|] eqn:Hs;
    [destruct (nodes st !! target_uid e) as [nt|] eqn:Ht|].
  - pose proof (add_edge_eval _ _ _ _ Hs Ht) as Hrun.
    destruct (add_edge_twice_ok _ _ _ Hrun) as (st2 & Hrun2 & He & Hn).
    rewrite Hrun. cbn [fst snd]. by rewrite Hrun2.
  - pose proof (add_edge_missing_target _ _ Ht) as Hrun.
    rewrite Hrun. cbn [fst snd]. rewrite Hrun.
    repeat split. apply same_nodes_refl.
  - pose proof (add_edge_missing_source _ _ Hs) as Hrun.
    rewrite Hrun. cbn [fst snd]. rewrite Hrun.
    repeat split. apply same_nodes_refl.
Qed.

End Idempotence.

(** ** Removing an edge that was just added *)

Lemma except_Exception_raise_ok {A} (m : M A) st st' a :
  m st = (st', Ok a) → except_Exception_raise m st = (st', Ok a).
Proof. intros E. unfold except_Exception_raise. by rewrite E. Qed.

Lemma get_edge_ok s t ed st :
  edges st !! _generate_edge_uid s t = Some ed → get_edge s t st = (st, Ok ed).
Proof. intros E. unfold get_edge. by rewrite E. Qed.

Lemma list_remove_elem x l :
  NoDup l → x ∈ l →
  ∃ l', list_remove x l = Some l' ∧ ∀ y, y ∈ l' ↔ y ∈ l ∧ y ≠ x.
Proof.
  induction 1 as [|z l Hz Hl IH]; intros Hx; [by apply elem_of_nil in Hx|].
  simpl. case_decide as Hzx.
  - subst z. exists l. split; [done|]. intros y. rewrite elem_of_cons.
    split; [intros Hy; split; [auto | by intros ->]|].
    by intros [[->|Hy] Hne].
  - apply elem_of_cons in Hx as [->|Hx]; [done|].
    destruct (IH Hx) as (l' & -> & Hl'). exists (z :: l'). split; [done|].
    intros y. rewrite !elem_of_cons, Hl'. split.
    + intros [->|[Hy Hne]]; auto.
    + intros [[->|Hy] Hne]; auto.
Qed.

Lemma remove_edge_eval st s t ed ns nt l1 l2 l3 l4 :
  edges st !! _generate_edge_uid s t = Some ed →
  nodes st !! s = Some ns →
  nodes st !! t = Some nt →
  list_remove t (edges_to ns) = Some l1 →
  list_remove s (edges_from nt) = Some l2 →
  (directed ed = false →
   list_remove t (edges_from ns) = Some l3 ∧
   list_remove s (edges_to nt) = Some l4) →
  remove_edge s t st =
    (mkStore (remove_edge_nodes s t (directed ed) ns nt l1 l2 l3 l4 (nodes st))
             (remove_edge_edges s t (directed ed) (edges st)),
     Ok tt).
Proof.
  intros He Hs Ht H1 H2 Hu. unfold remove_edge, remove_edge_nodes, remove_edge_edges.
  erewrite bind_ok by (by apply except_Exception_raise_ok, get_edge_ok). simpl.
  erewrite bind_ok by (by apply except_Exception_raise_ok, get_node_ok). simpl.
  erewrite bind_ok by (by apply except_Exception_raise_ok, get_node_ok). simpl.
  mstep. mstep. mstep. mstep. mstep.
  destruct (directed ed); simpl; [done|].
  destruct Hu as [H3 H4]; [done|].
  mstep. mstep. mstep. mstep. done.
Qed.

Section RoundTrip.
Context `{PySet}.

Lemma list_remove_fresh_union x l :
  x ∉ l →
  ∃ l', list_remove x (list_set_union l x) = Some l' ∧ ∀ y, y ∈ l' ↔ y ∈ l.
Proof.
  intros Hx.
  destruct (list_remove_elem x (list_set_union l x)) as (l' & Hl' & Hin).
  - apply list_set_union_NoDup.
  - apply list_set_union_elem. by right.
  - exists l'. split; [done|]. intros y. rewrite Hin, list_set_union_elem.
    split; [by intros [[?| ->] ?]|]. intros Hy. split; [by left|]. by intros ->.
Qed.

Lemma remove_add_edge_edges e m :
  remove_edge_edges (source_uid e) (target_uid e) (directed e)
    (add_edge_edges e m) =
  remove_edge_edges (source_uid e) (target_uid e) (directed e) m.
Proof.
  unfold remove_edge_edges, add_edge_edges. destruct (directed e); simpl.
  - by rewrite delete_insert_eq.
  - apply map_eq. intros k. repeat (rewrite lookup_delete || rewrite lookup_insert).
    repeat case_decide; congruence.
Qed.

Lemma add_edge_edges_forward e m :
  ∃ ed, add_edge_edges e m !! _generate_edge_uid (source_uid e) (target_uid e)
          = Some ed ∧ directed ed = directed e.
Proof.
  unfold add_edge_edges. destruct (directed e) eqn:Hd; simpl.
  - rewrite lookup_insert_eq. eauto.
  - rewrite lookup_insert. case_decide; [eauto|]. rewrite lookup_insert_eq. eauto.
Qed.

(** The undirected self loop: both copies of the node are written in
    turn, and the last write carries both removals. *)
Lemma round_trip_undirected_self_loop st e ns nt :
  nodes st !! source_uid e = Some ns →
  nodes st !! target_uid e = Some nt →
  source_uid e = target_uid e →
  directed e = false →
  target_uid e ∉ edges_to ns →
  source_uid e ∉ edges_from nt →
  ∃ st2 ns' nt',
    remove_edge (source_uid e) (target_uid e)
      (mkStore (add_edge_nodes e ns nt (nodes st)) (add_edge_edges e (edges st)))
      = (st2, Ok tt) ∧
    nodes st2 !! source_uid e = Some ns' ∧ same_adjacency_sets ns' ns ∧
    nodes st2 !! target_uid e = Some nt' ∧ same_adjacency_sets nt' nt ∧
    (∀ u, u ≠ source_uid e → u ≠ target_uid e →
          nodes st2 !! u = nodes st !! u) ∧
    edges st2 !! _generate_edge_uid (source_uid e) (target_uid e) = None ∧
    (directed e = false →
     edges st2 !! _generate_edge_uid (target_uid e) (source_uid e) = None) ∧
    edges st2 =
      remove_edge_edges (source_uid e) (target_uid e) (directed e) (edges st).
Proof.
  intros Hs Ht E Hd Hto Hfrom.
  assert (nt = ns) as -> by (rewrite E in Hs; congruence).
  destruct (add_edge_edges_forward e (edges st)) as (ed & Hed & Hdir).
  pose proof (remove_add_edge_edges e (edges st)) as Hedges.
  rewrite Hd in Hdir, Hedges. rewrite E in Hfrom.
  destruct (list_remove_fresh_union _ _ Hto) as (l1 & Hl1 & Hin1).
  destruct (list_remove_fresh_union _ _ Hfrom) as (l2 & Hl2 & Hin2).
  assert (add_edge_nodes e ns ns (nodes st) !! target_uid e =
          Some (mkNode (node_attrs ns)
                  (list_set_union (edges_to ns) (target_uid e))
                  (list_set_union (edges_from ns) (target_uid e)))) as Hlook.
  { unfold add_edge_nodes. rewrite Hd, E. simpl. by rewrite lookup_insert_eq. }
  rewrite E in Hed, Hedges |- *.
  eexists _, _, _. split.
  { eapply (remove_edge_eval _ _ _ ed _ _ l1 l2 l2 l1); simpl;
      [exact Hed | exact Hlook | exact Hlook | exact Hl1 | exact Hl2
      | intros _; split; [exact Hl2 | exact Hl1]]. }
  rewrite Hdir. cbn [nodes edges]. rewrite Hd, Hedges.
  unfold remove_edge_nodes. simpl. rewrite !lookup_insert_eq.
  split; [done|]. split; [by split; [|split]|].
  split; [done|]. split; [by split; [|split]|].
  split.
  { intros u _ Hut. unfold add_edge_nodes. rewrite Hd, E. simpl.
    by rewrite !lookup_insert_ne. }
  unfold remove_edge_edges. simpl.
  split; [|split; [intros _; by rewrite lookup_delete_eq|done]].
  by rewrite lookup_delete_eq.
Qed.

(** C3 (as amended): when none of the adjacency entries [add_edge]
    inserts is there beforehand and the edge is not a directed self loop,
    [remove_edge] right after a successful [add_edge] succeeds, gives both
    endpoints back their attributes and adjacency sets, leaves every other
    node as it was and deletes the record(s) that [add_edge] wrote. *)
Theorem remove_edge_after_add_edge st e ns nt st1 :
  nodes st !! source_uid e = Some ns →
  nodes st !! target_uid e = Some nt →
  (source_uid e = target_uid e → directed e = false) →
  target_uid e ∉ edges_to ns →
  source_uid e ∉ edges_from nt →
  (directed e = false →
   (target_uid e ∉ edges_from ns) ∧ (source_uid e ∉ edges_to nt)) →
  add_edge e st = (st1, Ok tt) →
  ∃ st2 ns' nt',
    remove_edge (source_uid e) (target_uid e) st1 = (st2, Ok tt) ∧
    nodes st2 !! source_uid e = Some ns' ∧ same_adjacency_sets ns' ns ∧
    nodes st2 !! target_uid e = Some nt' ∧ same_adjacency_sets nt' nt ∧
    (∀ u, u ≠ source_uid e → u ≠ target_uid e →
          nodes st2 !! u = nodes st !! u) ∧
    edges st2 !! _generate_edge_uid (source_uid e) (target_uid e) = None ∧
    (directed e = false →
     edges st2 !! _generate_edge_uid (target_uid e) (source_uid e) = None) ∧
    edges st2 =
      remove_edge_edges (source_uid e) (target_uid e) (directed e) (edges st).
Proof.
  intros Hs Ht Hloop Hto Hfrom Hrev Hrun.
  rewrite (add_edge_eval _ _ _ _ Hs Ht) in Hrun. injection Hrun as <-.
  destruct (decide (source_uid e = target_uid e)) as [E|Hne].
  { apply round_trip_undirected_self_loop; auto. }
  destruct (list_remove_fresh_union _ _ Hto) as (l1 & Hl1 & Hin1).
  destruct (list_remove_fresh_union _ _ Hfrom) as (l2 & Hl2 & Hin2).
  destruct (add_edge_edges_forward e (edges st)) as (ed & Hed & Hdir).
  pose proof (remove_add_edge_edges e (edges st)) as Hedges.
  destruct (directed e) eqn:Hd.
  - eexists _, _, _. split.
    { eapply (remove_edge_eval _ _ _ ed _ _ l1 l2 [] []); simpl; try done.
      - unfold add_edge_nodes. rewrite Hd. simpl.
        by rewrite lookup_insert_ne, lookup_insert_eq.
      - unfold add_edge_nodes. rewrite Hd. simpl. by rewrite lookup_insert_eq.
      - done.
      - done.
      - by rewrite Hdir. }
    rewrite Hdir. cbn [nodes edges]. rewrite Hedges.
    unfold remove_edge_nodes, add_edge_nodes. rewrite Hd. simpl.
    split; [by rewrite lookup_insert_ne, lookup_insert_eq|].
    split; [by split; [|split]|].
    split; [by rewrite lookup_insert_eq|].
    split; [by split; [|split]|].
    split; [intros u Hus Hut; by rewrite !lookup_insert_ne|].
    unfold remove_edge_edges. simpl. by rewrite lookup_delete_eq.
  - destruct Hrev as [Hfrom' Hto']; [done|].
    destruct (list_remove_fresh_union _ _ Hfrom') as (l3 & Hl3 & Hin3).
    destruct (list_remove_fresh_union _ _ Hto') as (l4 & Hl4 & Hin4).
    eexists _, _, _. split.
    { eapply (remove_edge_eval _ _ _ ed _ _ l1 l2 l3 l4); simpl; try done.
      - unfold add_edge_nodes. rewrite Hd. simpl. by rewrite lookup_insert_eq.
      - unfold add_edge_nodes. rewrite Hd. simpl.
        by rewrite lookup_insert_ne, lookup_insert_eq.
      - done.
      - done.
      - done. }
    rewrite Hdir. cbn [nodes edges]. rewrite Hedges.
    unfold remove_edge_nodes, add_edge_nodes. rewrite Hd. simpl.
    split; [by rewrite lookup_insert_ne, lookup_insert_eq|].
    split; [by split; [|split]|].
    split; [by rewrite lookup_insert_eq|].
    split; [by split; [|split]|].
    split; [intros u Hus Hut; by rewrite !lookup_insert_ne|].
    unfold remove_edge_edges. simpl.
    split; [|split; [intros _; by rewrite lookup_delete_eq|done]].
    rewrite lookup_delete. case_decide; [done|]. by rewrite lookup_delete_eq.
Qed.

End RoundTrip.

(** ** Removing a node *)

Lemma with_nodes_id st : with_nodes st (nodes st) = st.
Proof. by destruct st. Qed.

Lemma strip_to_body uid other st :
  except_KeyError_continue (
    other_node_data ← get_node other;
    update_node other
      (set_edges_to other_node_data
         (filter (λ edge, edge ≠ uid) (edges_to other_node_data)))) st
  = (with_nodes st (strip_to uid (nodes st) other), Ok tt).
Proof.
  unfold except_KeyError_continue, strip_to.
  destruct (nodes st !! other) as [o|] eqn:Ho.
  - erewrite bind_ok by (by apply get_node_ok).
    by rewrite update_node_ok by (by rewrite Ho).
  - erewrite bind_raise by (by apply get_node_missing).
    by rewrite with_nodes_id.
Qed.

Lemma strip_from_body uid other st :
  except_KeyError_continue (
    other_node_data ← get_node other;
    update_node other
      (set_edges_from other_node_data
         (filter (λ edge, edge ≠ uid) (edges_from other_node_data)))) st
  = (with_nodes st (strip_from uid (nodes st) other), Ok tt).
Proof.
  unfold except_KeyError_continue, strip_from.
  destruct (nodes st !! other) as [o|] eqn:Ho.
  - erewrite bind_ok by (by apply get_node_ok).
    by rewrite update_node_ok by (by rewrite Ho).
  - erewrite bind_raise by (by apply get_node_missing).
    by rewrite with_nodes_id.
Qed.

(** A loop whose body always succeeds and only rewrites the node
    collection is a left fold over that collection. *)
Lemma for_each_nodes_fold (body : string → M unit)
    (f : gmap string NodeData → string → gmap string NodeData) l :
  (∀ x st, body x st = (with_nodes st (f (nodes st) x), Ok tt)) →
  ∀ st, for_each l body st = (with_nodes st (foldl f (nodes st) l), Ok tt).
Proof.
  intros Hbody. induction l as [|x l IH]; intros st; simpl.
  - by rewrite with_nodes_id.
  - erewrite bind_ok by apply Hbody. by rewrite IH.
Qed.

Section RemoveNode.
Context `{PySet}.

Lemma remove_node_eval st uid n :
  nodes st !! uid = Some n →
  remove_node uid st = (with_nodes st (remove_node_nodes uid n (nodes st)), Ok tt).
Proof.
  intros Hn. unfold remove_node, remove_node_nodes.
  erewrite bind_ok by apply node_exist_run.
  rewrite bool_decide_eq_true_2 by (by rewrite Hn). simpl.
  mstep.
  erewrite bind_ok
    by (apply (for_each_nodes_fold _ (strip_to uid)); intros; apply strip_to_body).
  erewrite bind_ok
    by (apply (for_each_nodes_fold _ (strip_from uid)); intros; apply strip_from_body).
  reflexivity.
Qed.


End RemoveNode.

Lemma filter_ne_twice (uid : string) (l : list string) :
  filter (λ edge, edge ≠ uid) (filter (λ edge, edge ≠ uid) l)
  = filter (λ edge, edge ≠ uid) l.
Proof.
  induction l as [|x l IH]; [done|].
  rewrite filter_cons. case_decide; [|done].
  rewrite !filter_cons. rewrite decide_True by done. by rewrite IH.
Qed.

(** After the first pass, exactly the nodes named in the list have been
    filtered, however often they were named. *)
Lemma foldl_strip_to_lookup uid l m x :
  foldl (strip_to uid) m l !! x =
  (λ nx, if decide (x ∈ l)
         then set_edges_to nx (filter (λ edge, edge ≠ uid) (edges_to nx))
         else nx) <$> m !! x.
Proof.
  revert m. induction l as [|o l IH]; intros m; simpl.
  - by destruct (m !! x).
  - rewrite IH. unfold strip_to.
    destruct (decide (x = o)) as [->|Hxo].
    + destruct (m !! o) as [no|] eqn:Ho; [|by rewrite Ho].
      rewrite lookup_insert_eq. simpl.
      rewrite (decide_True (P := o ∈ o :: l)) by (apply elem_of_cons; by left).
      case_decide; [|done].
      unfold set_edges_to. simpl. by rewrite filter_ne_twice.
    + assert ((match m !! o with
               | Some o0 => <[o:=set_edges_to o0
                                  (filter (λ edge, edge ≠ uid) (edges_to o0))]> m
               | None => m end) !! x = m !! x) as ->.
      { destruct (m !! o); [by rewrite lookup_insert_ne|done]. }
      destruct (m !! x); simpl; [|done]. f_equal.
      apply decide_ext. rewrite elem_of_cons. intuition congruence.
Qed.

Lemma foldl_strip_from_lookup uid l m x :
  foldl (strip_from uid) m l !! x =
  (λ nx, if decide (x ∈ l)
         then set_edges_from nx (filter (λ edge, edge ≠ uid) (edges_from nx))
         else nx) <$> m !! x.
Proof.
  revert m. induction l as [|o l IH]; intros m; simpl.
  - by destruct (m !! x).
  - rewrite IH. unfold strip_from.
    destruct (decide (x = o)) as [->|Hxo].
    + destruct (m !! o) as [no|] eqn:Ho; [|by rewrite Ho].
      rewrite lookup_insert_eq. simpl.
      rewrite (decide_True (P := o ∈ o :: l)) by (apply elem_of_cons; by left).
      case_decide; [|done].
      unfold set_edges_from. simpl. by rewrite filter_ne_twice.
    + assert ((match m !! o with
               | Some o0 => <[o:=set_edges_from o0
                                  (filter (λ edge, edge ≠ uid) (edges_from o0))]> m
               | None => m end) !! x = m !! x) as ->.
      { destruct (m !! o); [by rewrite lookup_insert_ne|done]. }
      destruct (m !! x); simpl; [|done]. f_equal.
      apply decide_ext. rewrite elem_of_cons. intuition congruence.
Qed.

Section Cascade.
Context `{PySet}.



End Cascade.

(** ** Pruning nodes of degree 0 *)

Lemma zero_degree_nil n : zero_degree n ↔ edges_to n = [] ∧ edges_from n = [].
Proof.
  unfold zero_degree. split.
  - intros Hlen. split; apply nil_length_inv; lia.
  - by intros [-> ->].
Qed.

Lemma elem_of_zerodegree_uids st uid :
  uid ∈ zerodegree_uids st ↔ ∃ n, nodes st !! uid = Some n ∧ zero_degree n.
Proof.
  unfold zerodegree_uids. rewrite list_elem_of_fmap. split.
  - intros ([k n] & -> & Hin). apply list_elem_of_filter in Hin as [Hz Hin].
    apply elem_of_map_to_list in Hin. by exists n.
  - intros (n & Hn & Hz). exists (uid, n). split; [done|].
    apply list_elem_of_filter. split; [done|]. by apply elem_of_map_to_list.
Qed.

Lemma NoDup_zerodegree_uids st : NoDup (zerodegree_uids st).
Proof.
  unfold zerodegree_uids.
  eapply sublist_NoDup; [apply (NoDup_fst_map_to_list (nodes st))|].
  apply fmap_sublist, sublist_filter.
Qed.

Section Prune.
Context `{PySet}.

Lemma remove_node_zero_degree st uid n :
  nodes st !! uid = Some n → zero_degree n →
  remove_node uid st = (with_nodes st (delete uid (nodes st)), Ok tt).
Proof.
  intros Hn [Hto Hfrom]%zero_degree_nil.
  rewrite (remove_node_eval _ _ _ Hn). unfold remove_node_nodes.
  by rewrite Hto, Hfrom.
Qed.

Lemma for_each_remove_zero_degree l : ∀ st,
  NoDup l →
  (∀ uid, uid ∈ l → ∃ n, nodes st !! uid = Some n ∧ zero_degree n) →
  ∃ st', for_each l remove_node st = (st', Ok tt) ∧
         edges st' = edges st ∧
         ∀ uid, nodes st' !! uid =
                if decide (uid ∈ l) then None else nodes st !! uid.
Proof.
  induction l as [|u l IH]; intros st Hnd Hall; simpl.
  - exists st. by repeat split.
  - apply NoDup_cons in Hnd as [Hu Hnd].
    destruct (Hall u) as (n & Hn & Hz); [apply elem_of_cons; by left|].
    erewrite bind_ok by (by eapply remove_node_zero_degree).
    destruct (IH (with_nodes st (delete u (nodes st))) Hnd) as (st' & Hrun & He & Hl).
    { intros uid Hin. destruct (Hall uid) as (n' & Hn' & Hz');
        [apply elem_of_cons; by right|].
      exists n'. split; [|done]. simpl. rewrite lookup_delete_ne; [done|].
      by intros ->. }
    exists st'. split; [done|]. split; [done|]. intros uid. rewrite Hl. simpl.
    destruct (decide (uid = u)) as [->|Hne].
    + rewrite (decide_True (P := u ∈ u :: l)) by (apply elem_of_cons; by left).
      rewrite lookup_delete_eq. by case_decide.
    + rewrite lookup_delete_ne by done.
      apply decide_ext. rewrite elem_of_cons. intuition congruence.
Qed.

(** C7: [clean_zerodegree_nodes] succeeds, deletes exactly the nodes
    whose [edges_to] and [edges_from] were both empty in the store it
    scanned, and leaves every other node record, and the edge collection,
    as they were. *)
Theorem clean_zerodegree_nodes_exact st :
  ∃ st',
    clean_zerodegree_nodes st = (st', Ok tt) ∧
    edges st' = edges st ∧
    ∀ uid,
      nodes st' !! uid =
      match nodes st !! uid with
      | Some n =>
          if decide (edges_to n = [] ∧ edges_from n = []) then None else Some n
      | None => None
      end.
Proof.
  unfold clean_zerodegree_nodes.
  destruct (for_each_remove_zero_degree (zerodegree_uids st) st)
    as (st' & Hrun & He & Hl).
  - apply NoDup_zerodegree_uids.
  - intros uid Hin. by apply elem_of_zerodegree_uids.
  - exists st'. split; [done|]. split; [done|]. intros uid. rewrite Hl.
    destruct (nodes st !! uid) as [n|] eqn:Hn.
    + case_decide as Hin.
      * apply elem_of_zerodegree_uids in Hin as (n' & Hn' & Hz).
        assert (n' = n) as -> by congruence.
        by rewrite decide_True by (by apply zero_degree_nil).
      * rewrite decide_False; [done|]. intros Hz%zero_degree_nil.
        apply Hin, elem_of_zerodegree_uids. eauto.
    + by case_decide.
Qed.

End Prune.

(** ** Edge identifiers *)

Lemma prefix_spec d u : String.prefix d u = true ↔ ∃ q, u = d +:+ q.
Proof.
  revert u. induction d as [|a d IH]; intros u.
  - split; [intros _; by exists u | by destruct u].
  - destruct u as [|b u]; simpl; [split; [done | by intros [q ?]]|].
    destruct (Ascii.ascii_dec a b) as [->|Hab].
    + rewrite IH. split; intros [q Hq]; exists q; [by rewrite Hq | by injection Hq].
    + split; [done|]. intros [q Hq]. injection Hq as ? ?. congruence.
Qed.

Lemma contains_unfold d u :
  contains d u =
  String.prefix d u ||
  match u with EmptyString => false | String _ u' => contains d u' end.
Proof. by destruct u. Qed.

Lemma ends_with_unfold d u :
  ends_with d u =
  String.eqb d u ||
  match u with EmptyString => false | String _ u' => ends_with d u' end.
Proof. by destruct u. Qed.

(** [contains d u] holds exactly when [d] occurs somewhere in [u]. *)
Lemma contains_spec d u :
  contains d u = true ↔ ∃ p q, u = p +:+ d +:+ q.
Proof.
  split.
  - induction u as [|c u IH]; rewrite contains_unfold, orb_true_iff.
    + intros [[q Hq]%prefix_spec|?]; [by exists "", q | done].
    + intros [[q Hq]%prefix_spec|Hc]; [by exists "", q|].
      destruct (IH Hc) as (p & q & ->). by exists (String c p), q.
  - intros (p & q & ->). induction p as [|c p IH].
    + rewrite contains_unfold.
      replace (String.prefix d ("" +:+ d +:+ q)) with true; [done|].
      symmetry. apply prefix_spec. by exists q.
    + rewrite contains_unfold. simpl. rewrite IH. apply orb_true_r.
Qed.

(** [ends_with d u] holds exactly when [u] is some string followed by [d]. *)
Lemma ends_with_spec d u : ends_with d u = true ↔ ∃ p, u = p +:+ d.
Proof.
  split.
  - induction u as [|c u IH]; rewrite ends_with_unfold, orb_true_iff.
    + intros [->%String.eqb_eq|?]; [by exists "" | done].
    + intros [->%String.eqb_eq|Hc]; [by exists ""|].
      destruct (IH Hc) as (p & ->). by exists (String c p).
  - intros (p & ->). induction p as [|c p IH].
    + rewrite ends_with_unfold. simpl. by rewrite String.eqb_refl.
    + rewrite ends_with_unfold. simpl. rewrite IH. apply orb_true_r.
Qed.

Lemma contains_tail d c u : contains d (String c u) = false → contains d u = false.
Proof. rewrite contains_unfold. by intros [_ ?]%orb_false_iff. Qed.

Lemma ends_with_tail d c u : ends_with d (String c u) = false → ends_with d u = false.
Proof. rewrite ends_with_unfold. by intros [_ ?]%orb_false_iff. Qed.

(** An identifier that begins with the delimiter cannot also begin with a
    non-empty source uid, unless that uid ends with ["_to"] or contains
    the delimiter. *)
Lemma edge_uid_empty_source s' t t' :
  contains "_to_" s' = false →
  ends_with "_to" s' = false →
  "_to_" +:+ t = s' +:+ "_to_" +:+ t' →
  s' = "".
Proof.
  intros Hc He Heq.
  destruct s' as [|c1 [|c2 [|c3 [|c4 r]]]]; [done|..]; simplify_eq/=.
  rewrite contains_unfold in Hc. apply orb_false_iff in Hc as [Hp _].
  simpl in Hp. by destruct r.
Qed.

(** C8 (as amended): the identifier is the source uid, ["_to_"], the
    target uid, in that order; two pairs whose source uids neither
    contain ["_to_"] nor end with ["_to"] get the same identifier exactly
    when they are the same pair. *)
Theorem generate_edge_uid_injective s t s' t' :
  contains "_to_" s = false → contains "_to_" s' = false →
  ends_with "_to" s = false → ends_with "_to" s' = false →
  _generate_edge_uid s t = s +:+ "_to_" +:+ t ∧
  (_generate_edge_uid s t = _generate_edge_uid s' t' ↔ s = s' ∧ t = t').
Proof.
  intros Hc Hc' He He'. split; [done|].
  split; [|by intros [-> ->]].
  unfold _generate_edge_uid.
  revert s' Hc Hc' He He'. induction s as [|c s IH]; intros s' Hc Hc' He He' Heq.
  - assert (s' = "") by eauto using edge_uid_empty_source. subst s'.
    simpl in Heq. by simplify_eq.
  - destruct s' as [|c' s'].
    + symmetry in Heq. by apply edge_uid_empty_source in Heq.
    + simpl in Heq. injection Heq as -> Heq.
      destruct (IH s') as [-> ->];
        eauto using contains_tail, ends_with_tail.
Qed.

(** ** Uids that contain the delimiter *)

Section NoValidation.
Context `{PySet} `{Firestore}.

(** C9 (as amended): no operation inspects a uid for ["_to_"].
    [add_node] with a uid that contains the delimiter succeeds and stores
    the record under that uid whenever the client takes the uid as a
    document id and can encode the record, the uid is not in the store
    and the record has no adjacency; [add_edge] between nodes that are in
    the store succeeds and stores the edge record, also when an endpoint
    uid contains the delimiter. *)
Theorem delimiter_uids_accepted st uid nd e ns nt :
  (contains "_to_" uid = true →
   document_id_ok uid = true →
   nodes st !! uid = None →
   edges_to nd = [] → edges_from nd = [] →
   node_encodable nd = true →
   add_node uid nd st = (with_nodes st (<[uid := nd]> (nodes st)), Ok tt)) ∧
  (contains "_to_" (source_uid e) = true ∨
   contains "_to_" (target_uid e) = true →
   nodes st !! source_uid e = Some ns →
   nodes st !! target_uid e = Some nt →
   ∃ st' ed,
     add_edge e st = (st', Ok tt) ∧
     get_edge (source_uid e) (target_uid e) st' = (st', Ok ed)).
Proof.
  split.
  - intros _ Hid Hfresh Hto Hfrom Henc. unfold add_node. rewrite Hid. simpl.
    erewrite bind_ok by apply node_exist_run.
    rewrite bool_decide_eq_false_2 by (rewrite Hfresh; by intros [? ?]).
    rewrite bool_decide_eq_false_2 by (rewrite Hto, Hfrom; by intros [?|?]).
    rewrite Henc. simpl. mstep. rewrite Hto, Hfrom. simpl. mstep. done.
  - intros _ Hs Ht.
    destruct (add_edge_edges_forward e (edges st)) as (ed & Hed & _).
    eexists _, ed. split; [by apply add_edge_eval|]. by apply get_edge_ok.
Qed.

End NoValidation.

(** ** The materialized graph *)

Module nx_facts.
Import nx.
Lemma empty_wf : wf empty.
Proof. intros n _. apply lookup_empty. Qed.

Lemma neighbors_empty x : neighbors x empty = ∅.
Proof. unfold neighbors, empty. simpl. by rewrite lookup_empty. Qed.

Lemma add_node_wf n a g : wf g → wf (add_node n a g).
Proof.
  intros Hwf m. unfold add_node.
  destruct (_node g !! n) eqn:Hn; simpl; rewrite !lookup_insert;
    repeat case_decide; try done; apply Hwf.
Qed.

Lemma add_node_neighbors n a g x :
  wf g → neighbors x (add_node n a g) = neighbors x g.
Proof.
  intros Hwf. unfold add_node, neighbors.
  destruct (_node g !! n) eqn:Hn; simpl; [done|].
  rewrite lookup_insert. case_decide; [subst|done]. by rewrite (Hwf _ Hn).
Qed.

Lemma touch_wf n g : wf g → wf (touch n g).
Proof.
  intros Hwf m. unfold touch.
  destruct (_node g !! n) eqn:Hn; simpl; [apply Hwf|].
  rewrite !lookup_insert. repeat case_decide; try done. apply Hwf.
Qed.

Lemma touch_neighbors n g x : wf g → neighbors x (touch n g) = neighbors x g.
Proof.
  intros Hwf. unfold touch, neighbors.
  destruct (_node g !! n) eqn:Hn; simpl; [done|].
  rewrite lookup_insert. case_decide; [subst|done]. by rewrite (Hwf _ Hn).
Qed.

Lemma touch_present n g : is_Some (_node (touch n g) !! n).
Proof.
  unfold touch. destruct (_node g !! n) eqn:Hn; simpl.
  - by rewrite Hn.
  - by rewrite lookup_insert_eq.
Qed.

Lemma touch_keeps m n g : is_Some (_node g !! m) → is_Some (_node (touch n g) !! m).
Proof.
  intros Hm. unfold touch. destruct (_node g !! n) eqn:Hn; simpl; [done|].
  rewrite lookup_insert. by case_decide.
Qed.

Lemma add_edge_wf u v g : wf g → wf (add_edge u v g).
Proof.
  intros Hwf m. unfold add_edge. simpl. intros Hm.
  assert (m ≠ u) as Hu.
  { intros ->. pose proof (touch_keeps u v _ (touch_present u g)) as [? Hp].
    congruence. }
  assert (m ≠ v) as Hv.
  { intros ->. pose proof (touch_present v (touch u g)) as [? Hp]. congruence. }
  rewrite !lookup_insert_ne by done.
  by apply (touch_wf v (touch u g) (touch_wf u g Hwf)).
Qed.

(** An [add_edge] joins its two endpoints, both ways, and changes no
    other adjacency; joining a pair that is already joined changes
    nothing. *)
Lemma add_edge_neighbors u v g x y :
  wf g →
  y ∈ neighbors x (add_edge u v g) ↔
  y ∈ neighbors x g ∨ (x = u ∧ y = v) ∨ (x = v ∧ y = u).
Proof.
  intros Hwf.
  assert (∀ z, neighbors z (touch v (touch u g)) = neighbors z g) as Ht.
  { intros z. rewrite touch_neighbors by (by apply touch_wf).
    by apply touch_neighbors. }
  unfold add_edge. unfold neighbors at 1. simpl.
  rewrite lookup_insert. case_decide as Hxv.
  - subst x. simpl. unfold neighbors at 1. simpl.
    rewrite lookup_insert. case_decide as Huv.
    + subst v. simpl. fold (neighbors u (touch u (touch u g))).
      rewrite Ht. rewrite ?elem_of_union, ?elem_of_singleton; intuition congruence.
    + fold (neighbors v (touch v (touch u g))). rewrite Ht. rewrite ?elem_of_union, ?elem_of_singleton; intuition congruence.
  - rewrite lookup_insert. case_decide as Hxu.
    + subst x. simpl. rewrite Ht. rewrite ?elem_of_union, ?elem_of_singleton; intuition congruence.
    + fold (neighbors x (touch v (touch u g))). rewrite Ht. rewrite ?elem_of_union, ?elem_of_singleton; intuition congruence.
Qed.

Lemma foldl_add_node_wf (l : list (string * NodeData)) g :
  wf g → wf (foldl (λ g doc, add_node doc.1 doc.2 g) g l).
Proof.
  revert g. induction l as [|d l IH]; intros g Hwf; simpl; [done|].
  by apply IH, add_node_wf.
Qed.

Lemma foldl_add_node_neighbors (l : list (string * NodeData)) g x :
  wf g →
  neighbors x (foldl (λ g doc, add_node doc.1 doc.2 g) g l) = neighbors x g.
Proof.
  revert g. induction l as [|d l IH]; intros g Hwf; simpl; [done|].
  rewrite IH by (by apply add_node_wf). by apply add_node_neighbors.
Qed.

Lemma foldl_add_edge_neighbors (l : list (string * EdgeData)) g x y :
  wf g →
  y ∈ neighbors x
        (foldl (λ g doc, add_edge (source_uid doc.2) (target_uid doc.2) g) g l) ↔
  y ∈ neighbors x g ∨
  ∃ doc, doc ∈ l ∧
    ((source_uid doc.2 = x ∧ target_uid doc.2 = y) ∨
     (source_uid doc.2 = y ∧ target_uid doc.2 = x)).
Proof.
  revert g. induction l as [|d l IH]; intros g Hwf; simpl.
  - split; [auto|]. intros [?|(doc & Hin & _)]; [done|].
    by apply elem_of_nil in Hin.
  - rewrite IH by (by apply add_edge_wf). rewrite add_edge_neighbors by done.
    split.
    + intros [[?|[[-> ->]|[-> ->]]]|(doc & Hin & Hdoc)]; auto.
      * right. exists d. split; [apply elem_of_cons; by left|auto].
      * right. exists d. split; [apply elem_of_cons; by left|auto].
      * right. exists doc. split; [apply elem_of_cons; by right|auto].
    + intros [?|(doc & [->|Hin]%elem_of_cons & Hdoc)]; auto.
      * left. right. destruct Hdoc as [[<- <-]|[<- <-]]; auto.
      * right. eauto.
Qed.

End nx_facts.

(** C10 (as amended): every edge record is handed to the graph, nothing
    is filtered out beforehand, but the graph is a simple undirected one:
    two nodes are joined exactly when some record joins them in one
    orientation or the other, and the number of edges between two nodes
    is never more than one, so the forward and the reverse record of an
    undirected edge make a single edge. *)
Theorem build_networkx_simple_graph st u v :
  (nx.number_of_edges u v (build_networkx st) ≤ 1)%nat ∧
  (nx.number_of_edges u v (build_networkx st) = 1 ↔
   ∃ k ed, edges st !! k = Some ed ∧
     ((source_uid ed = u ∧ target_uid ed = v) ∨
      (source_uid ed = v ∧ target_uid ed = u))).
Proof.
  unfold nx.number_of_edges. split; [case_decide; lia|].
  assert (v ∈ nx.neighbors u (build_networkx st) ↔
          ∃ k ed, edges st !! k = Some ed ∧
            ((source_uid ed = u ∧ target_uid ed = v) ∨
             (source_uid ed = v ∧ target_uid ed = u))) as Hadj.
  { unfold build_networkx.
    rewrite nx_facts.foldl_add_edge_neighbors
      by apply nx_facts.foldl_add_node_wf, nx_facts.empty_wf.
    rewrite nx_facts.foldl_add_node_neighbors by apply nx_facts.empty_wf.
    rewrite nx_facts.neighbors_empty. split.
    - intros [Hin|([k ed] & Hin & Hdoc)]; [by apply not_elem_of_empty in Hin|].
      apply elem_of_map_to_list in Hin. eauto.
    - intros (k & ed & Hk & Hdoc). right. exists (k, ed).
      split; [by apply elem_of_map_to_list|done]. }
  case_decide as Hin.
  - split; [intros _; by apply Hadj|done].
  - split; [done|]. intros Hex. by apply Hadj in Hex.
Qed.

(** * Further properties of the operations *)

(** ** Creating and removing nodes *)

Section NodeRepository.
Context `{PySet} `{Firestore}.

(** The two loops at the end of [add_node] run over lists that the guard
    before them has found empty. *)
Lemma add_node_eval st uid nd :
  document_id_ok uid = true →
  nodes st !! uid = None →
  edges_to nd = [] → edges_from nd = [] →
  node_encodable nd = true →
  add_node uid nd st = (with_nodes st (<[uid := nd]> (nodes st)), Ok tt).
Proof.
  intros Hid Hfresh Hto Hfrom Henc. unfold add_node. rewrite Hid. simpl.
  erewrite bind_ok by apply node_exist_run.
  rewrite bool_decide_eq_false_2 by (rewrite Hfresh; by intros [? ?]).
  rewrite bool_decide_eq_false_2 by (rewrite Hto, Hfrom; by intros [?|?]).
  rewrite Henc. simpl. mstep. rewrite Hto, Hfrom. simpl. mstep. done.
Qed.

(** What the client refuses, [add_node] refuses with [ValueError], and
    the store is as before. *)
Lemma add_node_client_refuses st uid nd :
  document_id_ok uid = false ∨ node_encodable nd = false →
  add_node uid nd st = (st, Raise ValueError).
Proof.
  intros Hbad. unfold add_node.
  destruct (document_id_ok uid); simpl; [|done].
  erewrite bind_ok by apply node_exist_run.
  destruct (bool_decide (is_Some (nodes st !! uid))); [done|].
  destruct (bool_decide (edges_to nd ≠ [] ∨ edges_from nd ≠ [])); [done|].
  destruct Hbad as [?| ->]; done.
Qed.

(** [add_node] with a uid the client takes as a document id and that is
    not in the store, and a record without adjacency that the client can
    encode, succeeds; [get_node] then returns that very record, every
    other node and the edge collection are as before. *)
Theorem add_node_then_get_node st uid nd :
  document_id_ok uid = true →
  nodes st !! uid = None →
  edges_to nd = [] → edges_from nd = [] →
  node_encodable nd = true →
  ∃ st',
    add_node uid nd st = (st', Ok tt) ∧
    get_node uid st' = (st', Ok nd) ∧
    node_exist uid st' = (st', Ok true) ∧
    (∀ u, u ≠ uid → nodes st' !! u = nodes st !! u) ∧
    edges st' = edges st.
Proof.
  intros Hid Hfresh Hto Hfrom Henc. eexists.
  split; [by apply add_node_eval|].
  split; [apply get_node_ok; simpl; apply lookup_insert_eq|].
  split.
  { unfold node_exist. simpl. rewrite lookup_insert_eq.
    by rewrite bool_decide_eq_true_2 by eauto. }
  split; [|done]. intros u Hu. simpl. by rewrite lookup_insert_ne.
Qed.

(** [add_node] raises [ValueError] and writes nothing when the uid is
    taken or when the record comes with adjacency entries. *)
Theorem add_node_rejected st uid nd :
  is_Some (nodes st !! uid) ∨ edges_to nd ≠ [] ∨ edges_from nd ≠ [] →
  add_node uid nd st = (st, Raise ValueError).
Proof.
  intros Hbad. unfold add_node.
  destruct (document_id_ok uid); simpl; [|done].
  erewrite bind_ok by apply node_exist_run.
  destruct (decide (is_Some (nodes st !! uid))) as [Hex|Hex].
  - by rewrite bool_decide_eq_true_2 by done.
  - rewrite bool_decide_eq_false_2 by done.
    by rewrite bool_decide_eq_true_2 by (destruct Hbad as [?|?]; done).
Qed.

(** Creating a node, where [add_node] can succeed, and removing it at
    once gives back the store one started from. *)
Theorem add_node_then_remove_node st uid nd :
  document_id_ok uid = true →
  nodes st !! uid = None →
  edges_to nd = [] → edges_from nd = [] →
  node_encodable nd = true →
  (_ ← add_node uid nd; remove_node uid) st = (st, Ok tt).
Proof.
  intros Hid Hfresh Hto Hfrom Henc.
  erewrite bind_ok by (by apply add_node_eval).
  erewrite remove_node_eval by (simpl; apply lookup_insert_eq).
  unfold remove_node_nodes. rewrite Hto, Hfrom. simpl.
  rewrite delete_insert_eq, delete_id by done. unfold with_nodes. simpl.
  by destruct st.
Qed.


(** [remove_node] takes nothing but the removed uid out of the adjacency
    lists of the nodes that stay: their attributes are kept, every other
    entry is kept, no node appears and no other node disappears. *)
Theorem remove_node_frame st uid n st' :
  nodes st !! uid = Some n →
  remove_node uid st = (st', Ok tt) →
  ∀ u, u ≠ uid →
    match nodes st !! u with
    | Some nu =>
        ∃ nu', nodes st' !! u = Some nu' ∧
          node_attrs nu' = node_attrs nu ∧
          (∀ x, x ≠ uid → x ∈ edges_to nu' ↔ x ∈ edges_to nu) ∧
          (∀ x, x ≠ uid → x ∈ edges_from nu' ↔ x ∈ edges_from nu) ∧
          (u ∉ edges_to n → u ∉ edges_from n → nu' = nu)
    | None => nodes st' !! u = None
    end.
Proof.
  intros Hn Hrun u Hu.
  rewrite (remove_node_eval _ _ _ Hn) in Hrun. injection Hrun as <-.
  simpl. unfold remove_node_nodes. rewrite lookup_delete_ne by done.
  rewrite foldl_strip_from_lookup, foldl_strip_to_lookup.
  destruct (nodes st !! u) as [nu|]; [|done]. simpl.
  eexists. split; [done|].
  destruct (decide (u ∈ edges_to n)); destruct (decide (u ∈ edges_from n));
    simpl;
    (split; [done|]);
    (split; [intros x Hx; rewrite ?list_elem_of_filter; tauto|]);
    (split; [intros x Hx; rewrite ?list_elem_of_filter; tauto|]);
    by intros.
Qed.

End NodeRepository.

(** ** Adding, updating and removing edges: errors and frame *)

Lemma adjacency_grows_refl n : adjacency_grows n n.
Proof. by repeat split. Qed.

Lemma adjacency_grows_trans n1 n2 n3 :
  adjacency_grows n1 n2 → adjacency_grows n2 n3 → adjacency_grows n1 n3.
Proof.
  intros (Ha & Ht & Hf) (Ha' & Ht' & Hf'). split; [congruence|]. split; auto.
Qed.

Lemma nodes_grow_refl m : nodes_grow m m.
Proof. intros u n Hu. exists n. split; [done|]. apply adjacency_grows_refl. Qed.

(** Writing, under [u], a record grown from the one [u] had at first. *)
Lemma nodes_grow_insert_first m m' u n n' :
  nodes_grow m m' → m !! u = Some n → adjacency_grows n n' →
  nodes_grow m (<[u := n']> m').
Proof.
  intros Hg Hu Hn v nv Hv. destruct (decide (u = v)) as [<-|Hne].
  - rewrite lookup_insert_eq. exists n'. split; [done|]. congruence.
  - rewrite lookup_insert_ne by done. by apply Hg.
Qed.

(** Writing, under [u], a record grown from the one [u] has now. *)
Lemma nodes_grow_insert_last m m' u n n' :
  nodes_grow m m' → m' !! u = Some n → adjacency_grows n n' →
  nodes_grow m (<[u := n']> m').
Proof.
  intros Hg Hu Hn v nv Hv. destruct (decide (u = v)) as [<-|Hne].
  - rewrite lookup_insert_eq. exists n'. split; [done|].
    destruct (Hg _ _ Hv) as (n1 & Hn1 & Hgrow).
    assert (n1 = n) as -> by congruence.
    by eapply adjacency_grows_trans.
  - rewrite lookup_insert_ne by done. by apply Hg.
Qed.

Lemma list_remove_None x l : x ∉ l → list_remove x l = None.
Proof.
  induction l as [|y l IH]; [done|]. intros Hx. simpl.
  apply not_elem_of_cons in Hx as [Hne Hx].
  rewrite decide_False by done. by rewrite IH.
Qed.

Lemma list_remove_Some x l :
  x ∈ l → ∃ l', list_remove x l = Some l' ∧ l ≡ₚ x :: l'.
Proof.
  induction l as [|y l IH]; [by intros ?%elem_of_nil|]. simpl.
  intros Hx. case_decide as Hy.
  - subst y. by exists l.
  - apply elem_of_cons in Hx as [->|Hx]; [done|].
    destruct (IH Hx) as (l' & -> & Hp). exists (y :: l'). split; [done|].
    rewrite Hp. apply Permutation_swap.
Qed.

Lemma except_Exception_raise_raise {A} (m : M A) st st' e :
  m st = (st', Raise e) → except_Exception_raise m st = (st', Raise Exception).
Proof. intros E. unfold except_Exception_raise. by rewrite E. Qed.

Lemma remove_or_ValueError_raise x l st :
  list_remove x l = None → remove_or_ValueError x l st = (st, Raise ValueError).
Proof. intros E. unfold remove_or_ValueError. by rewrite E. Qed.

Section EdgeEngine.
Context `{PySet}.

Lemma set_union_edges_to_grows n x :
  adjacency_grows n (set_edges_to n (list_set_union (edges_to n) x)).
Proof.
  split; [done|]. split; [|done]. intros y Hy. simpl.
  apply list_set_union_elem. by left.
Qed.

Lemma set_union_edges_from_grows n x :
  adjacency_grows n (set_edges_from n (list_set_union (edges_from n) x)).
Proof.
  split; [done|]. split; [done|]. intros y Hy. simpl.
  apply list_set_union_elem. by left.
Qed.

Lemma ensure_edges_to_grows t n : adjacency_grows n (ensure_edges_to t n).
Proof.
  unfold ensure_edges_to. case_decide;
    [apply adjacency_grows_refl | apply set_union_edges_to_grows].
Qed.

Lemma ensure_edges_from_grows s n : adjacency_grows n (ensure_edges_from s n).
Proof.
  unfold ensure_edges_from. case_decide;
    [apply adjacency_grows_refl | apply set_union_edges_from_grows].
Qed.

Lemma ensure_edges_to_elem t n : t ∈ edges_to (ensure_edges_to t n).
Proof.
  unfold ensure_edges_to. case_decide; [done|]. simpl.
  apply list_set_union_elem. by right.
Qed.

Lemma ensure_edges_from_elem s n : s ∈ edges_from (ensure_edges_from s n).
Proof.
  unfold ensure_edges_from. case_decide; [done|]. simpl.
  apply list_set_union_elem. by right.
Qed.


(** A successful [add_edge] only adds: every node keeps its attributes
    and all the adjacency entries it had, nodes other than the two
    endpoints are untouched, and so are the edge records under other
    identifiers than the forward and the reverse one. *)
Theorem add_edge_frame st e st' :
  add_edge e st = (st', Ok tt) →
  nodes_grow (nodes st) (nodes st') ∧
  (∀ u, u ≠ source_uid e → u ≠ target_uid e →
        nodes st' !! u = nodes st !! u) ∧
  (∀ k, k ≠ _generate_edge_uid (source_uid e) (target_uid e) →
        k ≠ _generate_edge_uid (target_uid e) (source_uid e) →
        edges st' !! k = edges st !! k) ∧
  (directed e = true →
   ∀ k, k ≠ _generate_edge_uid (source_uid e) (target_uid e) →
        edges st' !! k = edges st !! k).
Proof.
  intros Hrun.
  destruct (add_edge_ok_inv _ _ _ Hrun) as (ns & nt & Hs & Ht).
  rewrite (add_edge_eval _ _ _ _ Hs Ht) in Hrun. injection Hrun as <-.
  simpl. unfold add_edge_nodes, add_edge_edges.
  assert (nodes_grow (nodes st)
            (<[target_uid e := set_edges_from nt
                 (list_set_union (edges_from nt) (source_uid e))]>
               (<[source_uid e := set_edges_to ns
                    (list_set_union (edges_to ns) (target_uid e))]> (nodes st))))
    as Hgrow1.
  { eapply nodes_grow_insert_first; [|exact Ht|apply set_union_edges_from_grows].
    eapply nodes_grow_insert_first; [apply nodes_grow_refl|exact Hs|].
    apply set_union_edges_to_grows. }
  destruct (directed e); simpl.
  - split; [done|].
    split; [intros u Hus Hut; by rewrite !lookup_insert_ne|].
    split; [intros k Hk _; by rewrite lookup_insert_ne|].
    intros _ k Hk. by rewrite lookup_insert_ne.
  - split.
    { eapply nodes_grow_insert_first; [|exact Hs|].
      - eapply nodes_grow_insert_first; [exact Hgrow1|exact Ht|].
        split; [done|]. split; intros y Hy; simpl;
          apply list_set_union_elem; by left.
      - split; [done|]. split; intros y Hy; simpl;
          apply list_set_union_elem; by left. }
    split; [intros u Hus Hut; by rewrite !lookup_insert_ne|].
    split; [intros k Hk Hk'; by rewrite !lookup_insert_ne|done].
Qed.

(** After a directed [add_edge], [get_edge] returns the record with the
    identifier, the endpoints and the description that were passed, and
    [edge_exist] answers yes. *)
Theorem add_edge_then_get_edge st e ns nt :
  nodes st !! source_uid e = Some ns →
  nodes st !! target_uid e = Some nt →
  directed e = true →
  ∃ st',
    add_edge e st = (st', Ok tt) ∧
    get_edge (source_uid e) (target_uid e) st' =
      (st', Ok (mkEdge (Some (_generate_edge_uid (source_uid e) (target_uid e)))
                  (source_uid e) (target_uid e) (description e) true)) ∧
    edge_exist (source_uid e) (target_uid e) st' = (st', Ok true).
Proof.
  intros Hs Ht Hd. eexists. split; [by apply add_edge_eval|].
  unfold get_edge, edge_exist, add_edge_edges. rewrite Hd. simpl.
  rewrite lookup_insert_eq. split; [done|].
  by rewrite bool_decide_eq_true_2 by eauto.
Qed.

End EdgeEngine.

Section UpdateRemoveEdge.
Context `{PySet}.

Lemma update_edge_eval st e old ns nt :
  edges st !! _generate_edge_uid (source_uid e) (target_uid e) = Some old →
  nodes st !! source_uid e = Some ns →
  update_edge_source (source_uid e) (target_uid e) ns (nodes st)
    !! target_uid e = Some nt →
  update_edge e st =
    (mkStore
       (update_edge_target (source_uid e) (target_uid e) nt
          (update_edge_source (source_uid e) (target_uid e) ns (nodes st)))
       (<[_generate_edge_uid (source_uid e) (target_uid e) :=
            mkEdge (Some (_generate_edge_uid (source_uid e) (target_uid e)))
              (source_uid e) (target_uid e) (description e) (directed e)]>
          (edges st)),
     Ok tt).
Proof.
  intros He Hs Ht. unfold update_edge.
  erewrite bind_ok by reflexivity.
  rewrite bool_decide_eq_true_2 by eauto. simpl.
  erewrite bind_ok by (apply except_Exception_raise_ok; reflexivity).
  apply except_Exception_raise_ok.
  mstep. unfold update_edge_source, update_edge_target in *.
  destruct (decide (target_uid e ∈ edges_to ns)) as [Hin|Hin].
  - erewrite bind_ok by reflexivity. mstep.
    destruct (decide (source_uid e ∈ edges_from nt)); [reflexivity|].
    unfold ensure_edges_from. rewrite decide_False by done.
    rewrite update_node_ok by (simpl; eexists; eassumption). reflexivity.
  - unfold ensure_edges_to in *.
    rewrite (decide_False (P := target_uid e ∈ edges_to ns)) in Ht |- * by done.
    mstep. erewrite bind_ok by (apply get_node_ok; simpl; exact Ht). 
    destruct (decide (source_uid e ∈ edges_from nt)); [reflexivity|].
    unfold ensure_edges_from. rewrite decide_False by done.
    rewrite update_node_ok by (simpl; eexists; eassumption). reflexivity.
Qed.


(** [update_edge] on a recorded edge between nodes of the store succeeds
    and overwrites that one record with the data passed; afterwards the
    target is in the source's [edges_to] and the source in the target's
    [edges_from], also for a self loop; every node keeps its attributes and
    the adjacency entries it had, and nothing else is written: no reverse
    record and no reverse entries, whatever [directed] says. *)
Theorem update_edge_recorded st e old ns nt :
  edges st !! _generate_edge_uid (source_uid e) (target_uid e) = Some old →
  nodes st !! source_uid e = Some ns →
  nodes st !! target_uid e = Some nt →
  ∃ st' ns' nt',
    update_edge e st = (st', Ok tt) ∧
    edges st' =
      <[_generate_edge_uid (source_uid e) (target_uid e) :=
          mkEdge (Some (_generate_edge_uid (source_uid e) (target_uid e)))
            (source_uid e) (target_uid e) (description e) (directed e)]>
        (edges st) ∧
    nodes st' !! source_uid e = Some ns' ∧
    nodes st' !! target_uid e = Some nt' ∧
    target_uid e ∈ edges_to ns' ∧
    source_uid e ∈ edges_from nt' ∧
    nodes_grow (nodes st) (nodes st') ∧
    (∀ u, u ≠ source_uid e → u ≠ target_uid e →
          nodes st' !! u = nodes st !! u).
Proof.
  intros He Hs Ht.
  set (m1 := update_edge_source (source_uid e) (target_uid e) ns (nodes st)).
  assert (m1 !! source_uid e = Some (ensure_edges_to (target_uid e) ns)) as Hs1.
  { unfold m1, update_edge_source, ensure_edges_to.
    case_decide; [done|]. by rewrite lookup_insert_eq. }
  assert (nodes_grow (nodes st) m1) as Hg1.
  { unfold m1, update_edge_source. case_decide; [apply nodes_grow_refl|].
    eapply nodes_grow_insert_first;
      [apply nodes_grow_refl|exact Hs|apply ensure_edges_to_grows]. }
  destruct (Hg1 _ _ Ht) as (nt1 & Ht1 & Hgt1).
  set (m2 := update_edge_target (source_uid e) (target_uid e) nt1 m1).
  assert (m2 !! target_uid e = Some (ensure_edges_from (source_uid e) nt1)) as Ht2.
  { unfold m2, update_edge_target, ensure_edges_from.
    case_decide; [done|]. by rewrite lookup_insert_eq. }
  assert (nodes_grow (nodes st) m2) as Hg2.
  { unfold m2, update_edge_target. case_decide; [done|].
    eapply nodes_grow_insert_last;
      [exact Hg1|exact Ht1|apply ensure_edges_from_grows]. }
  assert (∃ ns2, m2 !! source_uid e = Some ns2 ∧
                 target_uid e ∈ edges_to ns2) as (ns2 & Hs2 & Hin2).
  { destruct (decide (source_uid e = target_uid e)) as [E|NE].
    - exists (ensure_edges_from (source_uid e) nt1).
      split; [by rewrite <- E in Ht2|].
      assert (nt1 = ensure_edges_to (target_uid e) ns) as ->
        by (rewrite E in Hs1; congruence).
      apply ensure_edges_from_grows, ensure_edges_to_elem.
    - exists (ensure_edges_to (target_uid e) ns).
      split; [|apply ensure_edges_to_elem].
      unfold m2, update_edge_target. case_decide; [done|].
      by rewrite lookup_insert_ne. }
  exists (mkStore m2
            (<[_generate_edge_uid (source_uid e) (target_uid e) :=
                 mkEdge (Some (_generate_edge_uid (source_uid e) (target_uid e)))
                   (source_uid e) (target_uid e) (description e) (directed e)]>
               (edges st))), ns2, (ensure_edges_from (source_uid e) nt1).
  split; [by eapply update_edge_eval|]. simpl.
  split; [done|]. split; [done|]. split; [done|]. split; [done|].
  split; [apply ensure_edges_from_elem|]. split; [done|].
  intros u Hus Hut. unfold m2, m1, update_edge_target, update_edge_source.
  repeat case_decide; by rewrite ?lookup_insert_ne.
Qed.

(** [update_edge] on a recorded edge whose target node is gone, as after
    [remove_node], raises [Exception] after two writes: the record is
    overwritten and the source lists the missing target in [edges_to]. *)
Theorem update_edge_target_missing st e old ns :
  edges st !! _generate_edge_uid (source_uid e) (target_uid e) = Some old →
  nodes st !! source_uid e = Some ns →
  nodes st !! target_uid e = None →
  ∃ st' ns',
    update_edge e st = (st', Raise Exception) ∧
    edges st' !! _generate_edge_uid (source_uid e) (target_uid e) =
      Some (mkEdge (Some (_generate_edge_uid (source_uid e) (target_uid e)))
              (source_uid e) (target_uid e) (description e) (directed e)) ∧
    nodes st' !! source_uid e = Some ns' ∧
    target_uid e ∈ edges_to ns' ∧
    nodes st' !! target_uid e = None.
Proof.
  intros He Hs Ht.
  assert (source_uid e ≠ target_uid e) as Hne by (intros E; congruence).
  unfold update_edge. erewrite bind_ok by reflexivity.
  rewrite bool_decide_eq_true_2 by eauto. simpl.
  erewrite bind_ok by (apply except_Exception_raise_ok; reflexivity).
  destruct (decide (target_uid e ∈ edges_to ns)) as [Hin|Hin].
  - eexists _, ns. split.
    { eapply except_Exception_raise_raise. mstep.
      rewrite decide_True by done. erewrite bind_ok by reflexivity.
      eapply bind_raise. by apply get_node_missing. }
    simpl. by rewrite lookup_insert_eq.
  - eexists _, _. split.
    { eapply except_Exception_raise_raise. mstep.
      rewrite decide_False by done. mstep.
      eapply bind_raise. apply get_node_missing. simpl.
      by rewrite lookup_insert_ne. }
    simpl. rewrite lookup_insert_eq, lookup_insert_eq, lookup_insert_ne by done.
    repeat split; try done. simpl. apply list_set_union_elem. by right.
Qed.

(** [remove_edge] raises [Exception] and writes nothing when the edge has
    no record or an endpoint is not in the store; so a record left behind
    by [remove_node] cannot be deleted through [remove_edge]. *)
Theorem remove_edge_missing st s t :
  edges st !! _generate_edge_uid s t = None ∨
  nodes st !! s = None ∨ nodes st !! t = None →
  remove_edge s t st = (st, Raise Exception).
Proof.
  intros Hmiss. unfold remove_edge.
  destruct (edges st !! _generate_edge_uid s t) as [ed|] eqn:He.
  - erewrite bind_ok by (by apply except_Exception_raise_ok, get_edge_ok).
    destruct (nodes st !! s) as [ns|] eqn:Hs.
    + erewrite bind_ok by (by apply except_Exception_raise_ok, get_node_ok).
      destruct (nodes st !! t) as [nt|] eqn:Ht.
      * by destruct Hmiss as [?|[?|?]].
      * eapply bind_raise, except_Exception_raise_raise.
        by apply get_node_missing.
    + eapply bind_raise, except_Exception_raise_raise.
      by apply get_node_missing.
  - eapply bind_raise, except_Exception_raise_raise.
    unfold get_edge. by rewrite He.
Qed.

(** [remove_edge] raises [ValueError] and writes nothing when the record
    and both nodes are there but the source does not list the target. *)
Theorem remove_edge_not_listed st s t ed ns nt :
  edges st !! _generate_edge_uid s t = Some ed →
  nodes st !! s = Some ns →
  nodes st !! t = Some nt →
  t ∉ edges_to ns →
  remove_edge s t st = (st, Raise ValueError).
Proof.
  intros He Hs Ht Hnot. unfold remove_edge.
  erewrite bind_ok by (by apply except_Exception_raise_ok, get_edge_ok).
  erewrite bind_ok by (by apply except_Exception_raise_ok, get_node_ok).
  erewrite bind_ok by (by apply except_Exception_raise_ok, get_node_ok).
  eapply bind_raise. by apply remove_or_ValueError_raise, list_remove_None.
Qed.

(** [remove_edge] stops half way when the source lists the target but the
    target does not list the source: it raises [ValueError] after having
    taken the target out of the source's [edges_to]; the edge record and
    every other node are as before. *)
Theorem remove_edge_half_done st s t ed ns nt :
  edges st !! _generate_edge_uid s t = Some ed →
  nodes st !! s = Some ns →
  nodes st !! t = Some nt →
  t ∈ edges_to ns →
  s ∉ edges_from nt →
  ∃ st' ns',
    remove_edge s t st = (st', Raise ValueError) ∧
    nodes st' !! s = Some ns' ∧
    edges_to ns ≡ₚ t :: edges_to ns' ∧
    edges_from ns' = edges_from ns ∧
    node_attrs ns' = node_attrs ns ∧
    (∀ u, u ≠ s → nodes st' !! u = nodes st !! u) ∧
    edges st' = edges st.
Proof.
  intros He Hs Ht Hin Hnot.
  destruct (list_remove_Some _ _ Hin) as (l1 & Hl1 & Hperm).
  eexists _, (set_edges_to ns l1). split.
  { unfold remove_edge.
    erewrite bind_ok by (by apply except_Exception_raise_ok, get_edge_ok).
    erewrite bind_ok by (by apply except_Exception_raise_ok, get_node_ok).
    erewrite bind_ok by (by apply except_Exception_raise_ok, get_node_ok).
    mstep. mstep.
    eapply bind_raise. by apply remove_or_ValueError_raise, list_remove_None. }
  simpl. rewrite lookup_insert_eq. repeat split; try done.
  intros u Hu. by rewrite lookup_insert_ne.
Qed.

End UpdateRemoveEdge.

(** ** Pruning twice, the full reset, communities *)

Section PruneTwice.
Context `{PySet}.

(** A second [clean_zerodegree_nodes] finds nothing to remove: removing
    nodes of degree 0 leaves the degree of the others as it was. *)
Theorem clean_zerodegree_nodes_twice st :
  clean_zerodegree_nodes (clean_zerodegree_nodes st).1
  = ((clean_zerodegree_nodes st).1, Ok tt).
Proof.
  unfold clean_zerodegree_nodes at 2 3.
  destruct (for_each_remove_zero_degree (zerodegree_uids st) st)
    as (st' & Hrun & _ & Hl).
  - apply NoDup_zerodegree_uids.
  - intros uid Hin. by apply elem_of_zerodegree_uids.
  - rewrite Hrun. simpl. unfold clean_zerodegree_nodes.
    assert (zerodegree_uids st' = []) as ->; [|done].
    apply elem_of_nil_inv. intros uid (n & Hn & Hz)%elem_of_zerodegree_uids.
    rewrite Hl in Hn. case_decide as Hin; [done|].
    apply Hin, elem_of_zerodegree_uids. eauto.
Qed.

End PruneTwice.





(** ** The nodes of the materialized graph *)

Module nx_nodes.
Import nx.

Lemma add_node_node n a g : _node (add_node n a g) = <[n := Some a]> (_node g).
Proof. unfold add_node. by destruct (_node g !! n). Qed.

Lemma foldl_add_node_node (l : list (string * NodeData)) g x :
  NoDup l.*1 →
  _node (foldl (λ g doc, add_node doc.1 doc.2 g) g l) !! x =
  match (list_to_map l : gmap string NodeData) !! x with
  | Some nd => Some (Some nd)
  | None => _node g !! x
  end.
Proof.
  revert g. induction l as [|[k nd] l IH]; intros g Hnd; simpl; [done|].
  apply NoDup_cons in Hnd as [Hk Hnd]. rewrite IH by done.
  rewrite add_node_node. simpl.
  destruct (decide (k = x)) as [->|Hne].
  - rewrite !lookup_insert_eq.
    by rewrite (not_elem_of_list_to_map_1 l x Hk).
  - by rewrite !lookup_insert_ne by done.
Qed.

Lemma touch_node n g x :
  _node (touch n g) !! x =
  match _node g !! x with
  | Some a => Some a
  | None => if decide (x = n) then Some None else None
  end.
Proof.
  unfold touch. destruct (_node g !! n) eqn:Hn; simpl.
  - destruct (_node g !! x) eqn:Hx; [done|].
    rewrite decide_False; [done|]. intros ->. congruence.
  - rewrite lookup_insert. destruct (decide (n = x)) as [->|Hne].
    + rewrite Hn. by rewrite decide_True.
    + destruct (_node g !! x); [done|]. by rewrite decide_False.
Qed.

Lemma add_edge_node u v g x :
  _node (add_edge u v g) !! x =
  match _node g !! x with
  | Some a => Some a
  | None => if decide (x = u ∨ x = v) then Some None else None
  end.
Proof.
  unfold add_edge. simpl. rewrite !touch_node.
  destruct (_node g !! x); [done|].
  destruct (decide (x = u)) as [->|Hu].
  - by rewrite decide_True by (by left).
  - destruct (decide (x = v)) as [->|Hv].
    + by rewrite decide_True by (by right).
    + rewrite decide_False; [done|]. by intros [?|?].
Qed.

Lemma foldl_add_edge_node (l : list (string * EdgeData)) g x :
  _node (foldl (λ g doc, add_edge (source_uid doc.2) (target_uid doc.2) g) g l)
    !! x =
  match _node g !! x with
  | Some a => Some a
  | None =>
      if decide (Exists (λ doc : string * EdgeData,
                           x = source_uid doc.2 ∨ x = target_uid doc.2) l)
      then Some None else None
  end.
Proof.
  revert g. induction l as [|d l IH]; intros g; simpl.
  - by destruct (_node g !! x).
  - rewrite IH, add_edge_node. destruct (_node g !! x); [done|].
    destruct (decide (x = source_uid d.2 ∨ x = target_uid d.2)) as [Hd|Hd].
    + by rewrite decide_True by (by apply Exists_cons; left).
    + apply decide_ext. rewrite Exists_cons. tauto.
Qed.

End nx_nodes.

(** The nodes of the materialized graph are the stored nodes, with their
    records as attributes, and besides them the endpoints named by edge
    records that are not stored nodes, with no attributes: a record left
    behind by [remove_node] brings the removed uid back into the graph. *)
Theorem build_networkx_nodes st uid :
  match nodes st !! uid with
  | Some nd => nx._node (build_networkx st) !! uid = Some (Some nd)
  | None =>
      (nx._node (build_networkx st) !! uid = Some None ↔
       ∃ k ed, edges st !! k = Some ed ∧
               (uid = source_uid ed ∨ uid = target_uid ed)) ∧
      (nx._node (build_networkx st) !! uid = None ↔
       ¬ ∃ k ed, edges st !! k = Some ed ∧
                 (uid = source_uid ed ∨ uid = target_uid ed))
  end.
Proof.
  unfold build_networkx.
  rewrite nx_nodes.foldl_add_edge_node.
  rewrite nx_nodes.foldl_add_node_node by apply NoDup_fst_map_to_list.
  rewrite list_to_map_to_list.
  destruct (nodes st !! uid) as [nd|]; [done|].
  unfold nx.empty. simpl. rewrite lookup_empty.
  assert (Exists (λ doc : string * EdgeData,
                    uid = source_uid doc.2 ∨ uid = target_uid doc.2)
                 (map_to_list (edges st)) ↔
          ∃ k ed, edges st !! k = Some ed ∧
                  (uid = source_uid ed ∨ uid = target_uid ed)) as Hex.
  { rewrite Exists_exists. split.
    - intros ([k ed] & Hin%elem_of_map_to_list & Hend). eauto.
    - intros (k & ed & Hk & Hend). exists (k, ed).
      split; [by apply elem_of_map_to_list|done]. }
  case_decide as Hd.
  - split; [split; [intros _; by apply Hex|done]|].
    split; [done|]. intros Hno. destruct Hno. by apply Hex.
  - split; [split; [done|]|].
    + intros Hyes. destruct Hd. by apply Hex.
    + split; [|done]. intros _ Hyes. apply Hd. by apply Hex.
Qed.

(** * The properties on the sample stores *)

(** ** Adding and removing edges *)

(** C1 at [A -> A] on two fresh nodes: the call succeeds, the record is
    directed, and [A] is not in its own [edges_to]. *)
Lemma add_edge_directed_self_loop_witness :
  ∃ st' n' ed,
    add_edge (e_AA true) st_AB = (st', Ok tt) ∧
    get_node "A" st' = (st', Ok n') ∧
    get_edge "A" "A" st' = (st', Ok ed) ∧
    directed ed = true ∧
    edges_to n' = [] ∧
    ("A" ∉ @nil string → "A" ∉ edges_to n').
Proof.
  exact (add_edge_directed_self_loop_drops_edges_to
           st_AB (e_AA true) node0 eq_refl eq_refl eq_refl).
Defined.

(** The store that call leaves: [A] has an incoming entry for itself and
    no outgoing one. *)
Example add_edge_directed_self_loop_store :
  (add_edge (e_AA true) st_AB).2 = Ok tt ∧
  nodes (add_edge (e_AA true) st_AB).1 !! "A" = Some (mkNode [] [] ["A"]).
Proof. split; reflexivity. Qed.

Lemma add_edge_undirected_witness :
  ∃ st' ns' nt' ef er,
    add_edge (e_AB false) st_AB = (st', Ok tt) ∧
    get_node "A" st' = (st', Ok ns') ∧
    get_node "B" st' = (st', Ok nt') ∧
    "B" ∈ edges_to ns' ∧ "B" ∈ edges_from ns' ∧
    "A" ∈ edges_to nt' ∧ "A" ∈ edges_from nt' ∧
    get_edge "A" "B" st' = (st', Ok ef) ∧
    get_edge "B" "A" st' = (st', Ok er) ∧
    directed ef = false ∧ directed er = false ∧
    edges st' !! "B_to_A" = Some (mkEdge (Some "B_to_A") "B" "A" "knows" false) ∧
    ("A_to_B" ≠ "B_to_A" →
     edges st' !! "A_to_B" = Some (mkEdge (Some "A_to_B") "A" "B" "knows" false)).
Proof.
  exact (add_edge_undirected st_AB (e_AB false) node0 node0
           eq_refl eq_refl eq_refl).
Defined.

(** C2 as stated fails where the forward and the reverse identifier are
    one string: between the two different nodes ["to_to"] and ["to"],
    neither uid containing the delimiter, and at a self loop, the
    undirected [add_edge] leaves a single edge record. *)
Lemma add_edge_undirected_single_record :
  "to_to" ≠ "to" ∧
  contains "_to_" "to_to" = false ∧ contains "_to_" "to" = false ∧
  (add_edge (mkEdge None "to_to" "to" "knows" false) st_to).2 = Ok tt ∧
  map_to_list (edges (add_edge (mkEdge None "to_to" "to" "knows" false) st_to).1)
    = [("to_to_to_to", mkEdge (Some "to_to_to_to") "to" "to_to" "knows" false)] ∧
  (add_edge (e_AA false) st_AB).2 = Ok tt ∧
  map_to_list (edges (add_edge (e_AA false) st_AB).1)
    = [("A_to_A", mkEdge (Some "A_to_A") "A" "A" "loop" false)].
Proof. repeat split; try discriminate; vm_compute; reflexivity. Qed.

Lemma add_edge_idempotent_witness :
  (add_edge (e_AB false) (add_edge (e_AB false) st_AB).1).2 = Ok tt ∧
  edges (add_edge (e_AB false) (add_edge (e_AB false) st_AB).1).1
    = edges (add_edge (e_AB false) st_AB).1 ∧
  same_nodes (nodes (add_edge (e_AB false) (add_edge (e_AB false) st_AB).1).1)
             (nodes (add_edge (e_AB false) st_AB).1).
Proof. exact (add_edge_idempotent st_AB (e_AB false)). Defined.

(** C3 as stated fails where the edge is already recorded: [add_edge]
    changes nothing in the adjacency sets, [remove_edge] then takes the
    entries out, and [A] ends without the [B] it had at the start. *)
Lemma round_trip_loses_recorded_edge :
  (add_edge (e_AB true) st_A_to_B).2 = Ok tt ∧
  (remove_edge "A" "B" (add_edge (e_AB true) st_A_to_B).1).2 = Ok tt ∧
  edges_to <$> nodes st_A_to_B !! "A" = Some ["B"] ∧
  edges_to <$>
    nodes (remove_edge "A" "B" (add_edge (e_AB true) st_A_to_B).1).1 !! "A"
  = Some [].
Proof. repeat split; reflexivity. Qed.

Lemma remove_edge_after_add_edge_witness :
  ∃ st2 ns' nt',
    remove_edge "A" "B" (add_edge (e_AB false) st_AB).1 = (st2, Ok tt) ∧
    nodes st2 !! "A" = Some ns' ∧ same_adjacency_sets ns' node0 ∧
    nodes st2 !! "B" = Some nt' ∧ same_adjacency_sets nt' node0 ∧
    (∀ u, u ≠ "A" → u ≠ "B" → nodes st2 !! u = nodes st_AB !! u) ∧
    edges st2 !! "A_to_B" = None ∧
    (false = false → edges st2 !! "B_to_A" = None) ∧
    edges st2 = remove_edge_edges "A" "B" false (edges st_AB).
Proof.
  refine (remove_edge_after_add_edge st_AB (e_AB false) node0 node0
            (add_edge (e_AB false) st_AB).1 eq_refl eq_refl _ _ _ _ eq_refl).
  - discriminate.
  - apply not_elem_of_nil.
  - apply not_elem_of_nil.
  - intros _. split; apply not_elem_of_nil.
Defined.

(** ** Removing nodes *)


(** That store is what three calls of the public interface leave. *)
Example st_one_sided_reached :
  (_ ← add_node "A" node0; _ ← add_node "B" node0;
   update_node "B" (mkNode [] ["A"] [])) (mkStore ∅ ∅)
  = (st_one_sided, Ok tt).
Proof. vm_compute. reflexivity. Qed.



(** On [A -> B] with an unconnected [C], pruning removes [C] alone. *)
Lemma clean_zerodegree_nodes_exact_witness :
  ∃ st',
    clean_zerodegree_nodes st_with_isolated = (st', Ok tt) ∧
    edges st' = edges st_with_isolated ∧
    ∀ uid,
      nodes st' !! uid =
      match nodes st_with_isolated !! uid with
      | Some n =>
          if decide (edges_to n = [] ∧ edges_from n = []) then None else Some n
      | None => None
      end.
Proof. exact (clean_zerodegree_nodes_exact st_with_isolated). Defined.

Example clean_zerodegree_nodes_sample :
  (clean_zerodegree_nodes st_with_isolated).2 = Ok tt ∧
  nodes (clean_zerodegree_nodes st_with_isolated).1 !! "C" = None ∧
  nodes (clean_zerodegree_nodes st_with_isolated).1 !! "A"
    = Some (mkNode [] ["B"] []) ∧
  nodes (clean_zerodegree_nodes st_with_isolated).1 !! "B"
    = Some (mkNode [] [] ["A"]).
Proof. repeat split; vm_compute; reflexivity. Qed.

(** ** Edge identifiers and the delimiter *)

(** C8 as stated fails where the delimiter overlaps itself across the
    boundary: no uid below contains ["_to_"], and the two pairs share an
    identifier. *)
Lemma generate_edge_uid_collision :
  contains "_to_" "x_to" = false ∧ contains "_to_" "y" = false ∧
  contains "_to_" "x" = false ∧ contains "_to_" "to_y" = false ∧
  _generate_edge_uid "x_to" "y" = _generate_edge_uid "x" "to_y" ∧
  ¬ ("x_to" = "x" ∧ "y" = "to_y").
Proof. repeat split; try reflexivity. by intros [? ?]. Qed.

Lemma generate_edge_uid_injective_witness :
  _generate_edge_uid "A" "B" = "A_to_B" ∧
  (_generate_edge_uid "A" "B" = _generate_edge_uid "B" "A" ↔
   "A" = "B" ∧ "B" = "A").
Proof.
  exact (generate_edge_uid_injective "A" "B" "B" "A"
           eq_refl eq_refl eq_refl eq_refl).
Defined.

(** C9 as stated fails: a uid that contains ["_to_"] is accepted by
    [add_node], and the record is written under it. *)
Lemma add_node_accepts_delimiter :
  contains "_to_" "a_to_b" = true ∧
  (add_node "a_to_b" node0 st_AB).2 = Ok tt ∧
  nodes (add_node "a_to_b" node0 st_AB).1 !! "a_to_b" = Some node0.
Proof. repeat split; reflexivity. Qed.

Lemma delimiter_uids_accepted_witness :
  add_node "a_to_b" node0 (mkStore ∅ ∅)
    = (mkStore (<["a_to_b" := node0]> ∅) ∅, Ok tt) ∧
  ∃ st' ed,
    add_edge (mkEdge None "x_to_y" "z" "knows" true) st_delimiter = (st', Ok tt) ∧
    get_edge "x_to_y" "z" st' = (st', Ok ed).
Proof.
  split.
  - exact (proj1 (delimiter_uids_accepted (mkStore ∅ ∅) "a_to_b" node0
                    (e_AB true) node0 node0)
             eq_refl eq_refl eq_refl eq_refl eq_refl eq_refl).
  - refine (proj2 (delimiter_uids_accepted st_delimiter "a_to_b" node0
                     (mkEdge None "x_to_y" "z" "knows" true) node0 node0)
              _ eq_refl eq_refl).
    left. reflexivity.
Defined.

(** ** The materialized graph *)

(** C10 as stated fails: no store yields a pair of nodes joined more than
    once. *)
Lemma build_networkx_no_multiplicity :
  ¬ ∃ st u v, (1 < nx.number_of_edges u v (build_networkx st))%nat.
Proof.
  intros (st & u & v & Hlt). unfold nx.number_of_edges in Hlt.
  case_decide; lia.
Qed.

(** An undirected edge is stored as two records and materialized as one
    edge. *)
Example build_networkx_undirected_pair :
  length (map_to_list (edges (add_edge (e_AB false) st_AB).1)) = 2%nat ∧
  nx.number_of_edges "A" "B" (build_networkx (add_edge (e_AB false) st_AB).1) = 1%nat ∧
  nx.number_of_edges "B" "A" (build_networkx (add_edge (e_AB false) st_AB).1) = 1%nat.
Proof. repeat split; vm_compute; reflexivity. Qed.

(** ** The further properties on the sample stores *)

Lemma add_node_then_get_node_witness :
  ∃ st',
    add_node "C" node0 st_AB = (st', Ok tt) ∧
    get_node "C" st' = (st', Ok node0) ∧
    node_exist "C" st' = (st', Ok true) ∧
    (∀ u, u ≠ "C" → nodes st' !! u = nodes st_AB !! u) ∧
    edges st' = edges st_AB.
Proof.
  exact (add_node_then_get_node st_AB "C" node0
           eq_refl eq_refl eq_refl eq_refl eq_refl).
Defined.

Lemma add_node_rejected_witness :
  add_node "A" node0 st_AB = (st_AB, Raise ValueError).
Proof.
  apply (add_node_rejected st_AB "A" node0). left. by exists node0.
Defined.

Lemma add_node_then_remove_node_witness :
  (_ ← add_node "C" node0; remove_node "C") st_AB = (st_AB, Ok tt).
Proof.
  exact (add_node_then_remove_node st_AB "C" node0
           eq_refl eq_refl eq_refl eq_refl eq_refl).
Defined.


Lemma remove_node_frame_witness :
  ∃ nu', nodes (remove_node "A" st_with_isolated).1 !! "B" = Some nu' ∧
    node_attrs nu' = [] ∧
    (∀ x, x ≠ "A" → x ∈ edges_to nu' ↔ x ∈ @nil string) ∧
    (∀ x, x ≠ "A" → x ∈ edges_from nu' ↔ x ∈ ["A"]) ∧
    ("B" ∉ ["B"] → "B" ∉ @nil string → nu' = mkNode [] [] ["A"]).
Proof.
  refine (remove_node_frame st_with_isolated "A" (mkNode [] ["B"] [])
            (remove_node "A" st_with_isolated).1 eq_refl eq_refl "B" _).
  discriminate.
Defined.


Lemma add_edge_frame_witness :
  nodes_grow (nodes st_A_to_B) (nodes (add_edge (e_AB false) st_A_to_B).1) ∧
  (∀ u, u ≠ "A" → u ≠ "B" →
        nodes (add_edge (e_AB false) st_A_to_B).1 !! u = nodes st_A_to_B !! u) ∧
  (∀ k, k ≠ "A_to_B" → k ≠ "B_to_A" →
        edges (add_edge (e_AB false) st_A_to_B).1 !! k = edges st_A_to_B !! k) ∧
  (false = true →
   ∀ k, k ≠ "A_to_B" →
        edges (add_edge (e_AB false) st_A_to_B).1 !! k = edges st_A_to_B !! k).
Proof.
  exact (add_edge_frame st_A_to_B (e_AB false)
           (add_edge (e_AB false) st_A_to_B).1 eq_refl).
Defined.

Lemma add_edge_then_get_edge_witness :
  ∃ st',
    add_edge (e_AB true) st_AB = (st', Ok tt) ∧
    get_edge "A" "B" st' =
      (st', Ok (mkEdge (Some "A_to_B") "A" "B" "knows" true)) ∧
    edge_exist "A" "B" st' = (st', Ok true).
Proof.
  exact (add_edge_then_get_edge st_AB (e_AB true) node0 node0
           eq_refl eq_refl eq_refl).
Defined.


Lemma update_edge_recorded_witness :
  ∃ st' ns' nt',
    update_edge (e_AB false) st_half_removed = (st', Ok tt) ∧
    edges st' =
      <["A_to_B" := mkEdge (Some "A_to_B") "A" "B" "knows" false]>
        (edges st_half_removed) ∧
    nodes st' !! "A" = Some ns' ∧
    nodes st' !! "B" = Some nt' ∧
    "B" ∈ edges_to ns' ∧
    "A" ∈ edges_from nt' ∧
    nodes_grow (nodes st_half_removed) (nodes st') ∧
    (∀ u, u ≠ "A" → u ≠ "B" → nodes st' !! u = nodes st_half_removed !! u).
Proof.
  exact (update_edge_recorded st_half_removed (e_AB false)
           (mkEdge (Some "A_to_B") "A" "B" "knows" true)
           (mkNode [] ["B"] []) node0 eq_refl eq_refl eq_refl).
Defined.

Lemma update_edge_target_missing_witness :
  ∃ st' ns',
    update_edge (e_AB true) st_orphan = (st', Raise Exception) ∧
    edges st' !! "A_to_B" =
      Some (mkEdge (Some "A_to_B") "A" "B" "knows" true) ∧
    nodes st' !! "A" = Some ns' ∧
    "B" ∈ edges_to ns' ∧
    nodes st' !! "B" = None.
Proof.
  exact (update_edge_target_missing st_orphan (e_AB true)
           (mkEdge (Some "A_to_B") "A" "B" "knows" true) node0
           eq_refl eq_refl eq_refl).
Defined.

Lemma remove_edge_missing_witness :
  remove_edge "A" "B" st_orphan = (st_orphan, Raise Exception).
Proof.
  apply (remove_edge_missing st_orphan "A" "B"). right. right. reflexivity.
Defined.

Lemma remove_edge_not_listed_witness :
  remove_edge "A" "B" st_stale_record = (st_stale_record, Raise ValueError).
Proof.
  refine (remove_edge_not_listed st_stale_record "A" "B"
            (mkEdge (Some "A_to_B") "A" "B" "knows" true) node0 node0
            eq_refl eq_refl eq_refl _).
  apply not_elem_of_nil.
Defined.

Lemma remove_edge_half_done_witness :
  ∃ st' ns',
    remove_edge "A" "B" st_half_removed = (st', Raise ValueError) ∧
    nodes st' !! "A" = Some ns' ∧
    ["B"] ≡ₚ "B" :: edges_to ns' ∧
    edges_from ns' = [] ∧
    node_attrs ns' = [] ∧
    (∀ u, u ≠ "A" → nodes st' !! u = nodes st_half_removed !! u) ∧
    edges st' = edges st_half_removed.
Proof.
  refine (remove_edge_half_done st_half_removed "A" "B"
            (mkEdge (Some "A_to_B") "A" "B" "knows" true)
            (mkNode [] ["B"] []) node0 eq_refl eq_refl eq_refl _ _).
  - apply elem_of_cons. by left.
  - apply not_elem_of_nil.
Defined.

(** The orphan record of [st_orphan] puts [B] into the graph, without
    attributes, next to the stored node [A]. *)
Example build_networkx_orphan_endpoint :
  nx._node (build_networkx st_orphan) !! "A" = Some (Some node0) ∧
  nx._node (build_networkx st_orphan) !! "B" = Some None.
Proof. split; vm_compute; reflexivity. Qed.

Example flush_kg_sample :
  flush_kg kg_sample = (mkKG (mkStore ∅ ∅) ∅, Ok tt).
Proof. vm_compute. reflexivity. Qed.
